(** * GuitarSet annotation scripts: a shallow embedding

    The scripts under [annotation_process/] are linear pipelines: load a
    waveform, call the pYin analyzer and a few librosa routines, post-process
    the per-frame signals and append rows to CSV files.  This development
    embeds the post-processing and the file effects:

    - numbers that the scripts hold as Python floats (times, frequencies,
      energies) are exact rationals [Q]; sample and frame indices are [Z]
      or [nat] as the code uses them;
    - numpy arrays and Python lists are [list]s, indexed and sliced with
      Python's rules ([py_index], [py_slice]);
    - the file system is a finite map from paths to the rows a file holds,
      threaded through a state-and-exception monad [M];
    - third-party routines (librosa, the vamp host, jams) are the fields of
      the class [Collaborators].

    [offset_strength_multi] is embedded on a given spectrogram, and the MIDI
    writers ([onset.py], [jams_to_midi]) on records for notes, pitch bends
    and instruments. *)

From Stdlib Require Import ZArith QArith Qround List Lia Lqa String.
From stdpp Require Import gmap strings pretty.
Import ListNotations.

Local Open Scope Z_scope.

(** ** Python values and exceptions *)

Inductive exn : Type :=
| IndexError
| ValueError.

(** Outcome of running a piece of the program: a value, a raised exception,
    or [NoFuel] when a [while] loop of the model was cut before it ended. *)
Inductive result (A : Type) : Type :=
| Ok (a : A)
| Raise (e : exn)
| NoFuel.

Arguments Ok {A} a.
Arguments Raise {A} e.
Arguments NoFuel {A}.

Definition rbind {A B} (r : result A) (k : A -> result B) : result B :=
  match r with
  | Ok a => k a
  | Raise e => Raise e
  | NoFuel => NoFuel
  end.

Declare Scope result_scope.
Delimit Scope result_scope with result.
Notation "'try' x <- r ; k" := (rbind r (fun x => k))
  (at level 10, x pattern, r at level 100, k at level 200) : result_scope.

(** Strict comparison of two floats, [x < y]. *)
Definition Qltb (x y : Q) : bool :=
  Qnum x * Z.pos (Qden y) <? Qnum y * Z.pos (Qden x).

(** ** Indexing and slicing *)

Section Sequences.
Context {A : Type}.

(** [l[i]] for a non-negative index [i]. *)
Definition py_index (l : list A) (i : nat) : result A :=
  match l !! i with
  | Some x => Ok x
  | None => Raise IndexError
  end.

(** A slice bound: negative bounds count from the end, and the result is
    clamped to [0 .. len]. *)
Definition slice_bound (n : nat) (k : Z) : nat :=
  Z.to_nat (Z.min (Z.of_nat n) (Z.max 0 (if k <? 0 then k + Z.of_nat n else k))).

(** [l[a:b]]. *)
Definition py_slice (l : list A) (a b : Z) : list A :=
  let s := slice_bound (length l) a in
  let e := slice_bound (length l) b in
  take (e - s) (drop s l).

(** [len(l)] as a Python integer. *)
Definition len (l : list A) : Z := Z.of_nat (length l).

(** [zip(xs, ys)] stops at the shorter sequence. *)
Fixpoint py_zip {B} (xs : list A) (ys : list B) : list (A * B) :=
  match xs, ys with
  | x :: xs', y :: ys' => (x, y) :: py_zip xs' ys'
  | _, _ => []
  end.

(** [enumerate(l)], counting from [i]. *)
Fixpoint enumerate_from (i : nat) (l : list A) : list (nat * A) :=
  match l with
  | [] => []
  | x :: l' => (i, x) :: enumerate_from (S i) l'
  end.

Definition enumerate (l : list A) : list (nat * A) := enumerate_from 0 l.

End Sequences.

(** [np.arange(n)] as floats. *)
Definition arange (n : nat) : list Q := map (fun i => inject_Z (Z.of_nat i)) (seq 0 n).

(** ** The world the scripts act on *)

(** One CSV row; every row the scripts write has two fields. *)
Definition row : Type := Q * Q.

Record world : Type := mkWorld {
  files : gmap string (list row);
  stdout : list string
}.

(** State and exception: an exception keeps the effects made before it. *)
Definition M (A : Type) : Type := world -> result A * world.

Definition ret {A} (a : A) : M A := fun w => (Ok a, w).

Definition bind {A B} (m : M A) (k : A -> M B) : M B :=
  fun w =>
    match m w with
    | (Ok a, w') => k a w'
    | (Raise e, w') => (Raise e, w')
    | (NoFuel, w') => (NoFuel, w')
    end.

Definition lift {A} (r : result A) : M A := fun w => (r, w).

Declare Scope io_scope.
Delimit Scope io_scope with io.
Notation "x <- m ;; k" := (bind m (fun x => k))
  (at level 100, m at next level, right associativity) : io_scope.
Notation "m ;; k" := (bind m (fun _ => k))
  (at level 100, right associativity) : io_scope.

(** What a path holds; a missing file holds nothing. *)
Definition content (w : world) (p : string) : list row :=
  default [] (files w !! p).

(** [open(p, 'a')]: creates the file when missing, keeps what it holds. *)
Definition open_append (p : string) : M unit :=
  fun w => (Ok tt, mkWorld (<[p := content w p]> (files w)) (stdout w)).

(** [open(p, 'w')]: creates the file or empties it. *)
Definition open_write (p : string) : M unit :=
  fun w => (Ok tt, mkWorld (<[p := []]> (files w)) (stdout w)).

(** [writer.writerow(r)] on a file opened at path [p]. *)
Definition writerow (p : string) (r : row) : M unit :=
  fun w => (Ok tt, mkWorld (<[p := content w p ++ [r]]> (files w)) (stdout w)).

Definition print (s : string) : M unit :=
  fun w => (Ok tt, mkWorld (files w) (stdout w ++ [s])).

(** A [for] loop whose body acts on the world. *)
Fixpoint for_each {A} (l : list A) (body : A -> M unit) : M unit :=
  match l with
  | [] => ret tt
  | x :: l' => (body x ;; for_each l' body)%io
  end.

(** ** Third-party routines *)

Class Collaborators : Type := {
  (** [librosa.load(path, sr=None)]: samples and native sample rate. *)
  load : string -> list Q * Z;
  (** [vamp.collect(y, fs, 'pyin:pyin', output='smoothedpitchtrack',
      parameters=...)['vector']] for a value of [outputunvoiced]: the time
      step and the pitch track. *)
  pyin_smoothedpitchtrack : Z -> list Q -> Z -> Q * list Q;
  (** The same call with [output='voicedprob']. *)
  pyin_voicedprob : list Q -> Z -> Q * list Q;
  (** Harmonic part of [librosa.effects.hpss(y)]. *)
  hpss : list Q -> list Q;
  (** [librosa.feature.rmse(y, hop_length=256)[0]]. *)
  rmse : list Q -> list Q;
  (** [np.log] on one value. *)
  np_log : Q -> Q;
  (** [offset_strength_multi(y=seg, hop_length=256, sr=sr)[0]]: the mel
      spectrogram, dB conversion and channel aggregation are librosa's. *)
  offset_strength : list Q -> Z -> list Q;
  (** [librosa.util.peak_pick(x, 5, 5, 5, 7, 0.5, 10)]. *)
  peak_pick : list Q -> list nat;
  (** Onset times of the first ['onset'] annotation of a JAMS file. *)
  onset_times : string -> list Q;
  (** [librosa.time_to_samples(times, sr=sr)]. *)
  time_to_samples : list Q -> Z -> list Z
}.

(** [librosa.frames_to_time(frame, hop_length=256, sr=sr)], that is
    [frame * 256 / sr]; the statements that read its value take [sr]
    positive. *)
Definition frames_to_time (frame : Z) (sr : Z) : Q :=
  (inject_Z (frame * 256) / inject_Z sr)%Q.

(** ** [mono_anal.py]: one isolated note *)

Module MonoAnal.

Section Script.
Context `{Collaborators}.

Definition mono_anal (y : list Q) (fs : Z) : Q * list Q :=
  pyin_smoothedpitchtrack 2 y fs.

(** First [while] of [trim_pitch_track_end]: skip negative frames. *)
Fixpoint skip_negative (pitch_track : list Q) (fuel i : nat) : result nat :=
  match fuel with
  | O => NoFuel
  | S fuel' =>
      (try v <- py_index pitch_track i;
       if Qltb v 0 then
         if Z.of_nat i =? len pitch_track - 1 then Ok i
         else skip_negative pitch_track fuel' (S i)
       else Ok i)%result
  end.

(** Second [while]: walk over positive frames. *)
Fixpoint skip_positive (pitch_track : list Q) (fuel i : nat) : result nat :=
  match fuel with
  | O => NoFuel
  | S fuel' =>
      (try v <- py_index pitch_track i;
       if Qltb 0 v then
         if Z.of_nat i =? len pitch_track - 1 then Ok i
         else skip_positive pitch_track fuel' (S i)
       else Ok i)%result
  end.

Definition trim_pitch_track_end_fuel (fuel : nat) (pitch_track : list Q)
  : result (list Q * nat) :=
  (try st <- skip_negative pitch_track fuel 0;
   try e <- skip_positive pitch_track fuel st;
   Ok (py_slice pitch_track (Z.of_nat st) (Z.of_nat e), st))%result.

(** Each loop tests at most one frame per iteration, so one more step than
    the track has frames is always enough. *)
Definition trim_pitch_track_end (pitch_track : list Q) : result (list Q * nat) :=
  trim_pitch_track_end_fuel (S (length pitch_track)) pitch_track.

Record args : Type := mkArgs {
  wav_path : string;
  seg_start_time : Q;
  pt_path : string;
  onoff_path : string
}.

Definition too_short_msg : string :=
  "trimmed pitch_track is too short, droped note.".

(** [p_time[0]] and [p_time[-1]] of a non-empty array. *)
Definition first_time (p_time : list Q) : Q := hd 0%Q p_time.
Definition last_time (p_time : list Q) : Q := List.last p_time 0%Q.

Definition main (a : args) : M Z :=
  (let '(y, fs) := load (wav_path a) in
   let '(t_step, pitch_track) := mono_anal y fs in
   trimmed <- lift (trim_pitch_track_end pitch_track) ;;
   let '(pitch_track_trimed, st) := trimmed in
   let p_time :=
     map (fun k => k * t_step + seg_start_time a)%Q
         (arange (length pitch_track_trimed)) in
   if len p_time =? 0 then
     print too_short_msg ;; ret 0
   else
     let on_time := first_time p_time in
     let off_time := last_time p_time in
     open_append (pt_path a) ;;
     for_each (py_zip p_time (py_slice pitch_track_trimed (Z.of_nat st) (-1)))
              (fun tf => writerow (pt_path a) tf) ;;
     open_append (onoff_path a) ;;
     writerow (onoff_path a) (on_time, off_time) ;;
     ret 0)%io.

End Script.

End MonoAnal.

(** ** [stem_anal.py]: a whole stem cut at annotated onsets *)

Module StemAnal.

(** [np.diff(a, axis=0)]. *)
Fixpoint np_diff (a : list Q) : list Q :=
  match a with
  | x :: (y :: _) as rest => (y - x)%Q :: np_diff rest
  | _ => []
  end.

(** [np.maximum(x, y)] on one value. *)
Definition np_maximum (x y : Q) : Q := if Qltb x y then y else x.

(** An element-wise operation on two column arrays of shapes [(n,1)] and
    [(m,1)]: numpy stretches a column of one row and refuses other
    mismatches. *)
Definition broadcast (f : Q -> Q -> Q) (xs ys : list Q) : result (list Q) :=
  if (length xs =? length ys)%nat then Ok (zip_with f xs ys)
  else
    match xs, ys with
    | [x], _ => Ok (map (f x) ys)
    | _, [y] => Ok (map (fun x => f x y) xs)
    | _, _ => Raise ValueError
    end.

(** [[f for f in frames if keep(a[f])]]. *)
Fixpoint select_frames (a : list Q) (keep : Q -> bool) (frames : list nat)
  : result (list nat) :=
  match frames with
  | [] => Ok []
  | f :: frames' =>
      (try v <- py_index a f;
       try rest <- select_frames a keep frames';
       Ok (if keep v then f :: rest else rest))%result
  end.

(** The silence scan of [segment_offset]: [silence_f] keeps its initial
    value unless a frame of index 5 or more has energy under [1e-14]. *)
Fixpoint silence_scan (items : list (nat * Q)) (silence_f : Z) : Z :=
  match items with
  | [] => silence_f
  | (i, e) :: items' =>
      if (i <? 5)%nat then silence_scan items' silence_f
      else if Qltb e 1e-14 then Z.of_nat i
      else silence_scan items' silence_f
  end.

Definition silence_frame (rms : list Q) : Z :=
  silence_scan (enumerate rms) (len rms - 1).

(** What the silence scan returns for the frames from index [i] on: the
    first frame of index 5 or more whose energy is under [1e-14], or the
    value [silence_f] had before the scan. *)
Definition first_silent_from (rms : list Q) (i : nat) (dflt frame : Z) : Prop :=
  (exists j e, frame = Z.of_nat (i + j) /\ (5 <= i + j)%nat /\
      rms !! j = Some e /\ (e < 1e-14)%Q /\
      forall k e', (k < j)%nat -> (5 <= i + k)%nat -> rms !! k = Some e' ->
        (1e-14 <= e')%Q) \/
  (frame = dflt /\
   forall k e', (5 <= i + k)%nat -> rms !! k = Some e' -> (1e-14 <= e')%Q).

(** The first two lines of [segment_offset]. *)
Definition truncate_seg (seg : list Q) (sr : Z) : list Q :=
  if len seg >? sr * 4 then py_slice seg 0 (sr * 4) else seg.

(** The two filters on the picked peaks. *)
Definition candidates (to_peak_pick t_vec : list Q) (offset_frames_raw : list nat)
  : result (list nat) :=
  (try kept <- select_frames to_peak_pick (fun v => Qltb 2 v) offset_frames_raw;
   select_frames t_vec (fun t => Qltb 0.06 t) kept)%result.

Section Script.
Context `{Collaborators}.

Definition pt_anal (y : list Q) (fs : Z) : Q * list Q :=
  pyin_smoothedpitchtrack 1 y fs.

(** [rms] as [segment_offset] holds it, shifted by [1e-15]. *)
Definition energy (seg : list Q) : list Q :=
  map (fun e => e + 1e-15)%Q (rmse seg).

(** [to_peak_pick]: decay rate times offset strength over energy, floored
    at zero.  The divisor [rms[:-1]] is a root mean square plus [1e-15]; it
    is not zero for the energies librosa returns. *)
Definition likelihood (seg : list Q) (sr : Z) : result (list Q) :=
  let rms := energy seg in
  let rms_db := map np_log rms in
  let rms_diff := map Qopp (np_diff rms_db) in
  let offset_str := offset_strength seg sr in
  let min_idx := Nat.min (length rms_diff) (length offset_str) in
  let rms_diff := take min_idx rms_diff in
  let offset_str := take min_idx offset_str in
  (try num <- broadcast Qmult rms_diff offset_str;
   try quot <- broadcast Qdiv num (py_slice rms 0 (-1));
   Ok (map (fun v => np_maximum v 0) quot))%result.

(** What [segment_offset] has found when it reaches its [return]. *)
Record detection : Type := mkDetection {
  d_t_step : Q;
  d_pt : list Q;
  d_survivors : list nat;
  d_offset_frames : list Z
}.

Definition detect (seg : list Q) (sr : Z) : result detection :=
  let seg := truncate_seg seg sr in
  let seg := hpss seg in
  let '(t_step, pt) := pt_anal seg sr in
  let rms := energy seg in
  let silence_f := silence_frame rms in
  (try to_peak_pick <- likelihood seg sr;
   let t_vec := map (fun k => k * t_step)%Q (arange (length to_peak_pick)) in
   let offset_frames_raw := peak_pick to_peak_pick in
   try survivors <- candidates to_peak_pick t_vec offset_frames_raw;
   let offset_frames :=
     if (length survivors =? 0)%nat then [silence_f]
     else map Z.of_nat survivors in
   Ok (mkDetection t_step pt survivors offset_frames))%result.

Definition segment_offset (seg : list Q) (sr : Z) (seg_start_time : Q)
  : result (Q * list Q * Q) :=
  (try d <- detect seg sr;
   let offset_times := map (fun f => frames_to_time f sr) (d_offset_frames d) in
   try offset_time0 <- py_index offset_times 0;
   try offset_frame0 <- py_index (d_offset_frames d) 0;
   Ok ((offset_time0 + seg_start_time)%Q, py_slice (d_pt d) 0 offset_frame0,
       d_t_step d))%result.

(** The body of the loop of [chop_sig], over the items of
    [enumerate(adj_on_samps)] still to visit. *)
Fixpoint chop_sig_loop {A} (y : list A) (adj_on_samps : list Z)
  (items : list (nat * Z)) (y_chopt : list (list A)) : result (list (list A)) :=
  match items with
  | [] => Ok y_chopt
  | (i, on) :: items' =>
      (try e <- (if Z.of_nat i + 1 =? len adj_on_samps then Ok (len y)
                 else py_index adj_on_samps (i + 1));
       chop_sig_loop y adj_on_samps items' (y_chopt ++ [py_slice y on e]))%result
  end.

Definition chop_sig {A} (y : list A) (adj_on_samps : list Z) : result (list (list A)) :=
  chop_sig_loop y adj_on_samps (enumerate adj_on_samps) [].

Definition pt_csv (outname : string) : string := outname +:+ "_pt.csv".
Definition onoff_csv (outname : string) : string := outname +:+ "_onoff.csv".

(** Rows of one segment's pitch track, [note_anal] style: every frame. *)
Definition pt_rows (seg_start_time t_step : Q) (pitch_track : list Q) : list row :=
  map (fun '(i, f) => (seg_start_time + inject_Z (Z.of_nat i) * t_step, f)%Q)
      (enumerate pitch_track).

Definition note_anal (y : list Q) (fs : Z) (seg_start_time : Q) (outname : string)
  : M Z :=
  (r <- lift (segment_offset y fs seg_start_time) ;;
   let '(offset_time, pitch_track, t_step) := r in
   open_append (pt_csv outname) ;;
   for_each (pt_rows seg_start_time t_step pitch_track)
            (fun r => writerow (pt_csv outname) r) ;;
   open_append (onoff_csv outname) ;;
   writerow (onoff_csv outname) (seg_start_time, offset_time) ;;
   ret 0)%io.

Record args : Type := mkArgs {
  wavpath : string;
  outdir : string;
  onsetjams : string
}.

(** [print(k, len(y_chopt))]. *)
Definition progress_line (k : nat) (n : Z) : string :=
  pretty k +:+ " " +:+ pretty n.

(** One iteration of the loop of [main]. *)
Definition main_step (outname : string) (sr : Z) (n : Z)
  (item : nat * (list Q * Q)) : M unit :=
  (let '(k, (seg, seg_start_time)) := item in
   (if (k mod 20 =? 0)%nat then print (progress_line k n) else ret tt) ;;
   r <- lift (segment_offset seg sr seg_start_time) ;;
   let '(offset_time, pitch_track, t_step) := r in
   open_append (pt_csv outname) ;;
   for_each (pt_rows seg_start_time t_step pitch_track)
            (fun r => if Qltb 0 (snd r) then writerow (pt_csv outname) r
                      else ret tt) ;;
   open_append (onoff_csv outname) ;;
   writerow (onoff_csv outname) (seg_start_time, offset_time))%io.

(** The loop of [main], [k] counting the segments done. *)
Definition main_loop (outname : string) (sr : Z) (y_chopt : list (list Q))
  (adjusted_onset_times : list Q) : M unit :=
  for_each (enumerate (py_zip y_chopt adjusted_onset_times))
           (main_step outname sr (len y_chopt)).

Definition main (a : args) : M Z :=
  (let outname := outdir a in
   let '(y, sr) := load (wavpath a) in
   let adjusted_onset_times := onset_times (onsetjams a) in
   let adj_on_samps := time_to_samples adjusted_onset_times sr in
   y_chopt <- lift (chop_sig y adj_on_samps) ;;
   print "about to clear csv files" ;;
   open_write (pt_csv outname) ;;
   open_write (onoff_csv outname) ;;
   main_loop outname sr y_chopt adjusted_onset_times ;;
   ret 0)%io.

End Script.

End StemAnal.

(** ** [note_anal.py]: one note, offset from voicing and energy *)

Module NoteAnal.

(** The [while] of [segment_offset]: advance while the frame exists and its
    value is under [8.5]. *)
Fixpoint advance_offset (log_offset_prob : list Q) (fuel offset_frame : nat)
  : result nat :=
  match fuel with
  | O => NoFuel
  | S fuel' =>
      if Z.of_nat offset_frame <? len log_offset_prob then
        (try v <- py_index log_offset_prob offset_frame;
         if Qltb v 8.5 then advance_offset log_offset_prob fuel' (S offset_frame)
         else Ok offset_frame)%result
      else Ok offset_frame
  end.

Section Script.
Context `{Collaborators}.

Definition offset_anal (y : list Q) (fs : Z) : Q * list Q :=
  pyin_voicedprob y fs.

Definition pt_anal (y : list Q) (fs : Z) : Q * list Q :=
  pyin_smoothedpitchtrack 1 y fs.

(** [-np.log(rms * vp)] after both arrays are cut to the shorter one. *)
Definition log_offset_prob_of (seg : list Q) (sr : Z) : list Q :=
  let '(_, vp) := offset_anal seg sr in
  let rms := rmse seg in
  let min_idx := Z.min (len vp) (len rms) in
  let vp := map (fun v => v + 1e-12)%Q (py_slice vp 0 min_idx) in
  let rms := py_slice rms 0 min_idx in
  map (fun x => - np_log x)%Q (zip_with Qmult rms vp).

(** The frame [segment_offset] stops at; the loop starts at frame 10 and
    ends by the last frame, so one step per frame and one more suffice. *)
Definition offset_frame_of (seg : list Q) (sr : Z) : result nat :=
  let log_offset_prob := log_offset_prob_of seg sr in
  advance_offset log_offset_prob (S (length log_offset_prob)) 10.

Definition segment_offset (seg : list Q) (sr : Z) (seg_start_time : Q)
  : result (Q * list Q * Q) :=
  let '(t_step, pt) := pt_anal seg sr in
  (try offset_frame <- offset_frame_of seg sr;
   let offset_time :=
     (frames_to_time (Z.of_nat offset_frame) sr + seg_start_time)%Q in
   Ok (offset_time, py_slice pt 0 (Z.of_nat offset_frame), t_step))%result.

Record args : Type := mkArgs {
  wav_path : string;
  seg_start_time : Q;
  pt_path : string;
  onoff_path : string
}.

Definition main (a : args) : M Z :=
  (let '(y, sr) := load (wav_path a) in
   r <- lift (segment_offset y sr (seg_start_time a)) ;;
   let '(offset_time, pitch_track, t_step) := r in
   open_append (pt_path a) ;;
   for_each (StemAnal.pt_rows (seg_start_time a) t_step pitch_track)
            (fun r => writerow (pt_path a) r) ;;
   open_append (onoff_path a) ;;
   writerow (onoff_path a) (seg_start_time a, offset_time) ;;
   ret 0)%io.

End Script.

End NoteAnal.

(** ** [offset_strength_multi] of [stem_anal.py] on a given spectrogram *)

Module OffsetStrength.

(** How a call can end badly.  [stem_anal.py] binds neither the name
    [ParameterError] nor the name [scipy], so the statements that mention
    them raise [NameError]; [PadError] is the [ValueError] of [np.pad] on a
    negative width. *)
Inductive failure : Type :=
| NameError
| ZeroDivisionError
| PadError.

Inductive outcome (A : Type) : Type :=
| Returns (a : A)
| Fails (e : failure).

Arguments Returns {A} a.
Arguments Fails {A} e.

(** [S.shape[1]] of a spectrogram held as the list of its rows, one row per
    frequency bin and one column per frame. *)
Definition columns (S : list (list Q)) : Z := len (hd [] S).

(** One row of [S[:, lag:] - ref_spec[:, :-lag]], with [ref_spec = S]. *)
Definition lag_difference (lag : Z) (row : list Q) : list Q :=
  zip_with Qminus (py_slice row lag (len row)) (py_slice row 0 (- lag)).

(** [np.maximum(0.0, -1 * v)] on one value. *)
Definition discard_increase (v : Q) : Q := StemAnal.np_maximum 0 (-1 * v)%Q.

(** Sum of the rows, column by column. *)
Definition column_sums (rows : list (list Q)) : list Q :=
  match rows with
  | [] => []
  | row :: rest => fold_left (zip_with Qplus) rest row
  end.

(** [librosa.util.sync(onset_env, [slice(None)], aggregate=np.mean,
    pad=True, axis=0)[0]]: the mean over all rows, for at least one row. *)
Definition mean_over_rows (rows : list (list Q)) : list Q :=
  map (fun total => total / inject_Z (len rows))%Q (column_sums rows).

(** The call [offset_strength_multi(S=S, lag=, max_size=, detrend=,
    center=, n_fft=, hop_length=)], the other arguments left at their
    defaults: [aggregate] is [np.mean] and [channels] spans all rows. *)
Definition offset_strength_multi (S : list (list Q)) (lag max_size : Z)
  (detrend center : bool) (n_fft hop_length : Z) : outcome (list (list Q)) :=
  if lag <? 1 then Fails NameError
  else if max_size <? 1 then Fails NameError
  else if negb (max_size =? 1) then Fails NameError
  else
    let onset_env := map (fun row => map discard_increase (lag_difference lag row)) S in
    let onset_env := [mean_over_rows onset_env] in
    if center && (2 * hop_length =? 0) then Fails ZeroDivisionError
    else
      let pad_width := if center then lag + n_fft / (2 * hop_length) else lag in
      if pad_width <? 0 then Fails PadError
      else
        let onset_env :=
          map (fun row => repeat 0%Q (Z.to_nat pad_width) ++ row) onset_env in
        if detrend then Fails NameError
        else
          Returns (if center
                   then map (fun row => py_slice row 0 (columns S)) onset_env
                   else onset_env).

End OffsetStrength.

(** A spectrogram of two bins and eight frames: one bin decays, one grows. *)
Definition decaying_spectrogram : list (list Q) :=
  [[-10; -10; -20; -30; -40; -50; -60; -60]%Q;
   [-60; -50; -40; -40; -40; -40; -40; -40]%Q].

(** ** MIDI output: [onset.py] and [jams_to_midi] of [visualize/interpreter.py] *)

Module Midi.

(** [pretty_midi.Note], [PitchBend] and [Instrument]; a [PrettyMIDI] object
    is the list of its instruments. *)
Record note : Type := mkNote {
  velocity : Z;
  pitch : Z;
  start : Q;
  end_time : Q
}.

Record pitch_bend : Type := mkPitchBend {
  bend : Z;
  bend_time : Q
}.

Record instrument : Type := mkInstrument {
  program : Z;
  notes : list note;
  pitch_bends : list pitch_bend
}.

Definition pretty_midi : Type := list instrument.

(** [int(round(x))] on a float, as Python 3 and numpy round: to the
    nearest integer, and to the even one of the two when [x] lies half-way. *)
Definition py_round (x : Q) : Z :=
  let f := Qfloor x in
  let frac := (x - inject_Z f)%Q in
  if Qltb frac (1 # 2) then f
  else if Qltb (1 # 2) frac then f + 1
  else if Z.even f then f else f + 1.

(** One entry of the ['list'] the analyzer returns for [output='notes']. *)
Record pyin_note : Type := mkPyinNote {
  n_values : list Q;
  n_timestamp : Q;
  n_duration : Q
}.

Class Transcriber : Type := {
  (** [vamp.collect(y, fs, 'pyin:pyin', output='notes',
      parameters=param)['list']]. *)
  notes_of : list Q -> Z -> list pyin_note;
  (** [librosa.hz_to_midi] on one value. *)
  hz_to_midi : Q -> Q;
  (** [pretty_midi.PrettyMIDI('tempo_template.mid')]. *)
  tempo_template : pretty_midi
}.

(** What exists on disk: a path holds MIDI data, or something else. *)
Record disk : Type := mkDisk {
  paths : gmap string (option pretty_midi);
  console : list string
}.

Section Onset.
Context `{Collaborators} `{Transcriber}.

(** The note [build_midi_from_output] makes of an analyzer note whose first
    frequency value is [v]. *)
Definition note_of (n : pyin_note) (v : Q) : note :=
  mkNote 100 (py_round (hz_to_midi v)) (n_timestamp n)
         (n_timestamp n + n_duration n)%Q.

(** The loop of [build_midi_from_output], [ch_notes] being [ch.notes]. *)
Fixpoint append_notes (pyin_note_output : list pyin_note) (ch_notes : list note)
  : result (list note) :=
  match pyin_note_output with
  | [] => Ok ch_notes
  | n :: rest =>
      (try hz <- py_index (map hz_to_midi (n_values n)) 0;
       let pitch := py_round hz in
       let st := n_timestamp n in
       let dur := n_duration n in
       append_notes rest (ch_notes ++ [mkNote 100 pitch st (st + dur)%Q]))%result
  end.

Definition build_midi_from_output (pyin_note_output : list pyin_note)
  : result pretty_midi :=
  (try ch_notes <- append_notes pyin_note_output [];
   Ok (tempo_template ++ [mkInstrument 25 ch_notes []]))%result.

Definition say (line : string) (d : disk) : disk :=
  mkDisk (paths d) (console d ++ [line]).

(** [rough_midi(args)] with [args.inpath] and [args.outpath]. *)
Definition rough_midi (inpath outpath : string) (d : disk) : result Z * disk :=
  if decide (is_Some (paths d !! outpath)) then
    (Ok 0, say "file already exist" d)
  else
    let '(y, fs) := load inpath in
    let d := say "finished loading" d in
    let pyin_note_output := notes_of y fs in
    let d := say "finished pYin" d in
    match build_midi_from_output pyin_note_output with
    | Ok midi => (Ok 0, mkDisk (<[outpath := Some midi]> (paths d)) (console d))
    | Raise e => (Raise e, d)
    | NoFuel => (NoFuel, d)
    end.

End Onset.

(** One observation of a JAMS annotation. *)
Record observation : Type := mkObservation {
  o_time : Q;
  o_duration : Q;
  o_value : Q
}.

(** The notes of one annotation in [jams_to_midi]; [choice k] is what the
    [k]-th call of [np.random.choice(range(-5, 5))] returns. *)
Fixpoint fill_channel (q : Z) (choice : nat -> Z) (k : nat)
  (anno : list observation) (midi_ch : instrument) : instrument * nat :=
  match anno with
  | [] => (midi_ch, k)
  | o :: rest =>
      let pitch := py_round (o_value o) in
      let bend_amount := py_round ((o_value o - inject_Z pitch) * 4096)%Q in
      let st := o_time o in
      let dur := o_duration o in
      let n := mkNote (100 + choice k) pitch st (st + dur)%Q in
      let pb := mkPitchBend (bend_amount * q) st in
      fill_channel q choice (S k) rest
        (mkInstrument (program midi_ch) (notes midi_ch ++ [n])
                      (pitch_bends midi_ch ++ [pb]))
  end.

(** The loop over the annotations. *)
Fixpoint add_channels (q : Z) (choice : nat -> Z) (k : nat)
  (annos : list (list observation)) (midi : pretty_midi) : pretty_midi :=
  match annos with
  | [] => midi
  | anno :: rest =>
      let '(midi_ch, k') := fill_channel q choice k anno (mkInstrument 25 [] []) in
      add_channels q choice k' rest
        (if len (notes midi_ch) =? 0 then midi else midi ++ [midi_ch])
  end.

(** [jams_to_midi(jam, q)], [search] being [jam.search(namespace=...)]. *)
Definition jams_to_midi (search : string -> list (list observation)) (q : Z)
  (choice : nat -> Z) : pretty_midi :=
  let annos := search "note_midi" in
  let annos := if len annos =? 0 then search "pitch_midi" else annos in
  add_channels q choice 0 annos [].

(** What [jams_to_midi] keeps true of every instrument it returns. *)
Definition well_formed_channel (q : Z) (ch : instrument) : Prop :=
  program ch = 25 /\ notes ch <> [] /\
  length (pitch_bends ch) = length (notes ch) /\
  Forall (fun pb => exists b, bend pb = b * q /\ -2048 <= b <= 2048)
         (pitch_bends ch).

End Midi.

(** [hz_to_midi] on the two frequencies the test doubles use. *)
Definition midi_of_a (hz : Q) : Q :=
  if Qeq_bool hz 440 then 69 else if Qeq_bool hz 220 then 57 else 0.

(** A transcriber that answers with two notes, and one whose second note
    has no frequency value. *)
Definition two_notes : Midi.Transcriber := {|
  Midi.notes_of := fun _ _ =>
    [Midi.mkPyinNote [440%Q] 0.5 0.25; Midi.mkPyinNote [220%Q] 1 0.5];
  Midi.hz_to_midi := midi_of_a;
  Midi.tempo_template := []
|}.

Definition note_without_value : Midi.Transcriber := {|
  Midi.notes_of := fun _ _ =>
    [Midi.mkPyinNote [440%Q] 0.5 0.25; Midi.mkPyinNote [] 1 0.5];
  Midi.hz_to_midi := midi_of_a;
  Midi.tempo_template := []
|}.

(** A JAMS file with two strings annotated, the second one silent. *)
Definition two_strings (namespace : string) : list (list Midi.observation) :=
  if decide (namespace = "note_midi") then
    [[Midi.mkObservation 0 1 40.3; Midi.mkObservation 1 1 42.5]; []]
  else [].

(** ** Test doubles for the collaborators *)

(** A coarse rational stand-in for the natural logarithm:
    [ln 2 * floor (log2 x)], computed on [x] scaled by [2^60]. *)
Definition approx_log (x : Q) : Q :=
  (inject_Z (Z.log2 (Qfloor (x * inject_Z (2 ^ 60))) - 60) * 0.6931)%Q.

(** Recorded answers of the analyzer and of librosa for one recording. *)
Record recording : Type := mkRecording {
  rec_audio : list Q;
  rec_sr : Z;
  rec_t_step : Q;
  rec_pitch : list Q;
  rec_voiced : list Q;
  rec_rms : list Q;
  rec_strength : list Q;
  rec_peaks : list nat;
  rec_onsets : list Q
}.

(** Collaborators that replay a recording; [time_to_samples] truncates
    [t * sr] as [astype(int)] does. *)
Definition replay (r : recording) : Collaborators := {|
  load := fun _ => (rec_audio r, rec_sr r);
  pyin_smoothedpitchtrack := fun _ _ _ => (rec_t_step r, rec_pitch r);
  pyin_voicedprob := fun _ _ => (rec_t_step r, rec_voiced r);
  hpss := fun y => y;
  rmse := fun _ => rec_rms r;
  np_log := approx_log;
  offset_strength := fun _ _ => rec_strength r;
  peak_pick := fun _ => rec_peaks r;
  onset_times := fun _ => rec_onsets r;
  time_to_samples := fun times sr =>
    map (fun t => let x := (t * inject_Z sr)%Q in Z.quot (Qnum x) (Z.pos (Qden x)))
        times
|}.

(** The synthetic pitch track of the end-to-end scenario, at step 0.01 s. *)
Definition scenario_track : list Q := [-1; -1; 440; 440; 440; -1; -1]%Q.

Definition scenario : recording :=
  mkRecording (repeat 0%Q (6 * 256)) 44100 0.01 scenario_track [] [] [] [] [].

(** 1536 samples of silence at 44.1 kHz: seven frames of zero energy, a
    flat offset strength, no peak, no pitch. *)
Definition silence : recording :=
  mkRecording (repeat 0%Q (6 * 256)) 44100 (256 # 44100)
              (repeat 0%Q 7) (repeat 0%Q 7) (repeat 0%Q 7) (repeat 0%Q 7)
              [] [0%Q].

(** A note that sounds for twenty frames and then drops by 60 dB: the
    energy falls between frames 19 and 20, where the picked peak lies; the
    analyzer finds no pitch in the first two frames. *)
Definition decaying_note : recording :=
  mkRecording (repeat 0.1%Q (20 * 256) ++ repeat 0.0001%Q (9 * 256)) 44100 (256 # 44100)
              (repeat 0%Q 2 ++ repeat 440%Q 18 ++ repeat 0%Q 10)
              (repeat 1%Q 20 ++ repeat 0%Q 10)
              (repeat 0.1%Q 20 ++ repeat 0.0001%Q 10)
              (repeat 0%Q 19 ++ [60%Q] ++ repeat 0%Q 10)
              [19%nat] [0%Q].

(** A recording in which the analyzer finds no voiced frame. *)
Definition unvoiced_note : recording :=
  mkRecording (repeat 0%Q (6 * 256)) 44100 0.01 [-1; -1; -1]%Q [] [] [] [] [].

(** Ten frames of energy against three frames of offset strength. *)
Definition mismatched : recording :=
  mkRecording (repeat 0.1%Q (9 * 256)) 44100 (256 # 44100)
              (repeat 440%Q 10) (repeat 1%Q 10) (repeat 0.1%Q 10)
              (repeat 0%Q 3) [] [0%Q].

Definition world0 : world := mkWorld ∅ [].

(** A world whose two output files already hold one row each. *)
Definition used_world (pt onoff : string) : world :=
  mkWorld (<[pt := [(1, 440)%Q]]> (<[onoff := [(1, 2)%Q]]> ∅)) [].

(** ** Statements about onsets *)

(** Onsets in order inside a buffer of [n] samples. *)
Definition onsets_in_order (n : nat) (ons : list Z) : Prop :=
  (forall i a, ons !! i = Some a -> 0 <= a <= Z.of_nat n) /\
  (forall i a b, ons !! i = Some a -> ons !! S i = Some b -> a <= b).

(** ** Statements about file contents *)

(** Running [m] keeps the property [P] of what the file at [p] holds. *)
Definition file_inv {A} (P : list row -> Prop) (p : string) (m : M A) : Prop :=
  forall w, P (content w p) -> P (content (m w).2 p).

(** After [m], what the file at [p] holds has the property [P]. *)
Definition file_post {A} (P : list row -> Prop) (p : string) (m : M A) : Prop :=
  forall w, P (content (m w).2 p).

(** The outcome of [m] does not depend on the world, and two runs that
    start with the same content at [p] end with the same content at [p]. *)
Definition file_same {A} (p : string) (m : M A) : Prop :=
  forall w1 w2, (m w1).1 = (m w2).1 /\
    (content w1 p = content w2 p -> content (m w1).2 p = content (m w2).2 p).

(** Two runs of [m] end with the same content at [p], whatever it was. *)
Definition file_reset {A} (p : string) (m : M A) : Prop :=
  forall w1 w2, (m w1).1 = (m w2).1 /\
    content (m w1).2 p = content (m w2).2 p.

(** * Properties *)

(** ** Comparisons, slices and file contents *)

Lemma Qltb_lt (x y : Q) : Qltb x y = true <-> (x < y)%Q.
Proof. unfold Qltb, Qlt. apply Z.ltb_lt. Qed.

Lemma Qltb_ge (x y : Q) : Qltb x y = false <-> (y <= x)%Q.
Proof. unfold Qltb, Qle. rewrite Z.ltb_ge. reflexivity. Qed.

Lemma slice_bound_in_range (n : nat) (k : Z) :
  0 <= k <= Z.of_nat n -> slice_bound n k = Z.to_nat k.
Proof.
  intros Hk. unfold slice_bound.
  destruct (Z.ltb_spec k 0); [lia|].
  rewrite Z.max_r, Z.min_r by lia. reflexivity.
Qed.

Lemma slice_bound_beyond (n : nat) (k : Z) :
  Z.of_nat n <= k -> slice_bound n k = n.
Proof.
  intros Hk. unfold slice_bound.
  destruct (Z.ltb_spec k 0); [lia|].
  rewrite Z.max_r, Z.min_l by lia. lia.
Qed.

(** A slice between two bounds inside the sequence is the run of elements
    from the first bound up to, not including, the second. *)
Lemma py_slice_in_range {A} (l : list A) (a b : nat) :
  (a <= b <= length l)%nat ->
  py_slice l (Z.of_nat a) (Z.of_nat b) = take (b - a) (drop a l).
Proof.
  intros Hab. unfold py_slice.
  rewrite !slice_bound_in_range by lia. rewrite !Nat2Z.id. reflexivity.
Qed.

Lemma py_slice_lookup {A} (l : list A) (a b j : nat) :
  (a <= b <= length l)%nat -> (j < b - a)%nat ->
  py_slice l (Z.of_nat a) (Z.of_nat b) !! j = l !! (a + j)%nat.
Proof.
  intros Hab Hj. rewrite py_slice_in_range by lia.
  rewrite lookup_take_lt by lia. apply lookup_drop.
Qed.

Lemma py_slice_length {A} (l : list A) (a b : nat) :
  (a <= b <= length l)%nat ->
  length (py_slice l (Z.of_nat a) (Z.of_nat b)) = (b - a)%nat.
Proof.
  intros Hab. rewrite py_slice_in_range by lia.
  rewrite length_take, length_drop. lia.
Qed.

Lemma py_slice_empty {A} (l : list A) (a : Z) : py_slice l a a = [].
Proof. unfold py_slice. rewrite Nat.sub_diag. reflexivity. Qed.

Lemma py_index_Ok {A} (l : list A) (i : nat) (x : A) :
  py_index l i = Ok x <-> l !! i = Some x.
Proof. unfold py_index. destruct (l !! i); split; congruence. Qed.

Lemma content_mk (m : gmap string (list row)) (out : list string) (p : string) :
  content (mkWorld m out) p = default [] (m !! p).
Proof. reflexivity. Qed.

Lemma content_open_append (p q : string) (w : world) :
  content (open_append p w).2 q = content w q.
Proof.
  unfold open_append; simpl. rewrite content_mk.
  destruct (decide (p = q)) as [->|Hne].
  - rewrite lookup_insert_eq. reflexivity.
  - rewrite lookup_insert_ne by done. reflexivity.
Qed.

Lemma content_writerow (p q : string) (r : row) (w : world) :
  content (writerow p r w).2 q =
  if decide (p = q) then content w q ++ [r] else content w q.
Proof.
  unfold writerow; simpl. rewrite content_mk.
  destruct (decide (p = q)) as [->|Hne].
  - rewrite lookup_insert_eq. reflexivity.
  - rewrite lookup_insert_ne by done. reflexivity.
Qed.

Lemma content_open_write (p q : string) (w : world) :
  content (open_write p w).2 q = if decide (p = q) then [] else content w q.
Proof.
  unfold open_write; simpl. rewrite content_mk.
  destruct (decide (p = q)) as [->|Hne].
  - rewrite lookup_insert_eq. reflexivity.
  - rewrite lookup_insert_ne by done. reflexivity.
Qed.

Lemma content_print (s q : string) (w : world) :
  content (print s w).2 q = content w q.
Proof. reflexivity. Qed.

(** ** Pitch-track trimming *)

Section Trimming.
Import MonoAnal.

(** The first loop stops inside the track, on the first frame that is not
    negative or else on the last frame. *)
Lemma skip_negative_spec (pt : list Q) (fuel i : nat) :
  (i < length pt)%nat -> (length pt - i <= fuel)%nat ->
  exists st, skip_negative pt fuel i = Ok st /\ (i <= st < length pt)%nat /\
    (forall j v, (i <= j < st)%nat -> pt !! j = Some v -> (v < 0)%Q) /\
    (S st = length pt \/ exists v, pt !! st = Some v /\ (0 <= v)%Q).
Proof.
  revert i. induction fuel as [|fuel IH]; intros i Hi Hfuel; [lia|].
  destruct (lookup_lt_is_Some_2 pt i Hi) as [v Hv].
  simpl. unfold py_index. rewrite Hv. simpl.
  destruct (Qltb v 0) eqn:Hneg.
  - unfold len. destruct (Z.eqb_spec (Z.of_nat i) (Z.of_nat (length pt) - 1)) as [Hlast|Hlast].
    + exists i. repeat split; lia.
    + destruct (IH (S i)) as (st & Hst & Hrange & Hbefore & Hat); [lia|lia|].
      exists st. repeat split; try lia; try assumption.
      intros j u Hj Hu. destruct (decide (j = i)) as [->|Hne].
      * rewrite Hv in Hu. inversion Hu; subst. apply Qltb_lt. exact Hneg.
      * apply (Hbefore j); [lia|exact Hu].
  - exists i. repeat split; try lia. right. exists v. split; [exact Hv|].
    apply Qltb_ge. exact Hneg.
Qed.

(** The second loop also stops inside the track. *)
Lemma skip_positive_spec (pt : list Q) (fuel i : nat) :
  (i < length pt)%nat -> (length pt - i <= fuel)%nat ->
  exists e, skip_positive pt fuel i = Ok e /\ (i <= e < length pt)%nat /\
    (forall j v, (i <= j < e)%nat -> pt !! j = Some v -> (0 < v)%Q) /\
    (S e = length pt \/ exists v, pt !! e = Some v /\ (v <= 0)%Q).
Proof.
  revert i. induction fuel as [|fuel IH]; intros i Hi Hfuel; [lia|].
  destruct (lookup_lt_is_Some_2 pt i Hi) as [v Hv].
  simpl. unfold py_index. rewrite Hv. simpl.
  destruct (Qltb 0 v) eqn:Hpos.
  - unfold len. destruct (Z.eqb_spec (Z.of_nat i) (Z.of_nat (length pt) - 1)) as [Hlast|Hlast].
    + exists i. repeat split; lia.
    + destruct (IH (S i)) as (e & He & Hrange & Hbefore & Hat); [lia|lia|].
      exists e. repeat split; try lia; try assumption.
      intros j u Hj Hu. destruct (decide (j = i)) as [->|Hne].
      * rewrite Hv in Hu. inversion Hu; subst. apply Qltb_lt. exact Hpos.
      * apply (Hbefore j); [lia|exact Hu].
  - exists i. repeat split; try lia. right. exists v. split; [exact Hv|].
    apply Qltb_ge. exact Hpos.
Qed.

(** On a track with at least one frame, trimming returns: the fuel of
    [trim_pitch_track_end] is never used up and no index is out of range.
    The result is the run of frames from [st] to [e]. *)
Lemma trim_pitch_track_end_total (pt : list Q) :
  pt <> [] ->
  exists st e, trim_pitch_track_end pt = Ok (take (e - st) (drop st pt), st) /\
    (st <= e < length pt)%nat /\
    skip_negative pt (S (length pt)) 0 = Ok st /\
    skip_positive pt (S (length pt)) st = Ok e.
Proof.
  intros Hne.
  assert (0 < length pt)%nat as Hlen by (destruct pt; [congruence|simpl; lia]).
  destruct (skip_negative_spec pt (S (length pt)) 0) as (st & Hst & Hr1 & _); [lia|lia|].
  destruct (skip_positive_spec pt (S (length pt)) st) as (e & He & Hr2 & _); [lia|lia|].
  exists st, e. unfold trim_pitch_track_end, trim_pitch_track_end_fuel.
  rewrite Hst. cbn [rbind]. rewrite He. cbn [rbind].
  rewrite py_slice_in_range by lia. repeat split; try lia; assumption.
Qed.

(** The empty track makes the first test [pitch_track[0]] fail. *)
Lemma trim_pitch_track_end_empty :
  trim_pitch_track_end [] = Raise IndexError.
Proof. reflexivity. Qed.

End Trimming.

Section MonoAnalScript.
Import MonoAnal.

(** C3, as amended: on a track with at least one frame and no positive
    frame, [trim_pitch_track_end] returns an empty sub-sequence and raises
    nothing; the start index lies inside the track and is the index of the
    first frame that is not negative (a zero), or the last index when every
    frame is negative. *)
Theorem trim_unvoiced_track (pt : list Q) :
  pt <> [] -> Forall (fun v => (v <= 0)%Q) pt ->
  exists st, trim_pitch_track_end pt = Ok ([], st) /\ (st < length pt)%nat /\
    (forall j v, (j < st)%nat -> pt !! j = Some v -> (v < 0)%Q) /\
    (S st = length pt \/ exists v, pt !! st = Some v /\ (v == 0)%Q).
Proof.
  intros Hne Hall.
  assert (0 < length pt)%nat as Hlen by (destruct pt; [congruence|simpl; lia]).
  destruct (skip_negative_spec pt (S (length pt)) 0) as (st & Hst & Hr & Hbefore & Hat);
    [lia|lia|].
  destruct (lookup_lt_is_Some_2 pt st) as [v Hv]; [lia|].
  assert (v <= 0)%Q as Hv0 by (eapply (proj1 (Forall_lookup _ pt) Hall); eassumption).
  exists st. split; [|split; [lia|split]].
  - unfold trim_pitch_track_end, trim_pitch_track_end_fuel.
    rewrite Hst. cbn [rbind]. simpl. unfold py_index. rewrite Hv. cbn [rbind].
    apply Qltb_ge in Hv0. rewrite Hv0. cbn [rbind].
    rewrite py_slice_empty. reflexivity.
  - intros j u Hj Hu. apply (Hbefore j); [lia|exact Hu].
  - destruct Hat as [Hlast|(u & Hu & Hu0)]; [left; exact Hlast|right].
    exists v. split; [exact Hv|]. rewrite Hv in Hu. inversion Hu; subst.
    apply Qle_antisym; assumption.
Qed.

Lemma trim_unvoiced_track_witness :
  exists st, trim_pitch_track_end [-1; 0; -1]%Q = Ok ([], st) /\ (st < 3)%nat /\
    (forall j v, (j < st)%nat -> [-1; 0; -1]%Q !! j = Some v -> (v < 0)%Q) /\
    (S st = 3%nat \/ exists v, [-1; 0; -1]%Q !! st = Some v /\ (v == 0)%Q).
Proof.
  apply (trim_unvoiced_track [-1; 0; -1]%Q); [discriminate|].
  repeat constructor; discriminate.
Defined.

(** C3 as stated fails twice: the empty track raises [IndexError], and a
    track that starts with a zero frame gets start index 0, which is neither
    the length of the track nor its last index. *)
Lemma trim_unvoiced_counterexample :
  (Forall (fun v => (v <= 0)%Q) [] /\
   trim_pitch_track_end [] = Raise IndexError /\
   ~ exists st, trim_pitch_track_end [] = Ok ([], st)) /\
  (Forall (fun v => (v <= 0)%Q) [0; -1; -1]%Q /\
   trim_pitch_track_end [0; -1; -1]%Q = Ok ([], 0%nat) /\
   ~ exists st, trim_pitch_track_end [0; -1; -1]%Q = Ok ([], st) /\
                (st = 3 \/ st = 2)%nat).
Proof.
  split; split.
  - constructor.
  - split; [reflexivity|]. intros [st Hst]. discriminate Hst.
  - repeat constructor; discriminate.
  - split; [reflexivity|]. intros (st & Hst & Hterm).
    vm_compute in Hst. inversion Hst; subst. lia.
Qed.

(** C9: when trimming returns an empty track, [main] prints its message,
    leaves every file as it was (it opens none) and returns 0. *)
Theorem main_drops_empty_track `{Collaborators} (a : args) (w : world) (st : nat) :
  trim_pitch_track_end
    (mono_anal (load (wav_path a)).1 (load (wav_path a)).2).2 = Ok ([], st) ->
  main a w = (Ok 0, mkWorld (files w) (stdout w ++ [too_short_msg])).
Proof.
  intros Htrim. unfold main.
  destruct (load (wav_path a)) as [y fs]. simpl in Htrim.
  destruct (mono_anal y fs) as [t_step pitch_track]. simpl in Htrim.
  unfold bind, lift. rewrite Htrim. reflexivity.
Qed.

Lemma main_drops_empty_track_witness :
  @main (replay unvoiced_note) (mkArgs "note.wav" 0 "pt.csv" "onoff.csv") world0
  = (Ok 0, mkWorld ∅ [too_short_msg]).
Proof.
  apply (@main_drops_empty_track (replay unvoiced_note)
           (mkArgs "note.wav" 0 "pt.csv" "onoff.csv") world0 2%nat).
  reflexivity.
Defined.

End MonoAnalScript.

Section MonoAnalScenario.
Import MonoAnal.

(** C1, as amended: on the track [-1,-1,440,440,440,-1,-1] with step
    0.01 s and a zero [seg_start_time], trimming yields [440,440,440] with
    start index 2, and [main] returns 0 after appending one row to the
    onset/offset file, with on-time 0 s (the segment start) and off-time
    0.02 s (two steps later). *)
Theorem main_scenario_times `{Collaborators} (a : args) (w : world) (t_step : Q) :
  mono_anal (load (wav_path a)).1 (load (wav_path a)).2 = (t_step, scenario_track) ->
  (t_step == 0.01)%Q -> (seg_start_time a == 0)%Q ->
  trim_pitch_track_end scenario_track = Ok ([440; 440; 440]%Q, 2%nat) /\
  exists on_time off_time w',
    main a w = (Ok 0, w') /\
    content w' (onoff_path a) = content w (onoff_path a) ++ [(on_time, off_time)] /\
    (on_time == 0)%Q /\ (off_time == 0.02)%Q.
Proof.
  intros Hanal Hstep Hstart. split; [reflexivity|].
  unfold main. destruct (load (wav_path a)) as [y fs]. simpl in Hanal.
  rewrite Hanal.
  exists (inject_Z 0 * t_step + seg_start_time a)%Q,
         (inject_Z 2 * t_step + seg_start_time a)%Q.
  eexists. split; [reflexivity|]. split.
  - cbn [snd]. rewrite content_mk, lookup_insert_eq. cbn [default].
    rewrite content_mk, lookup_insert_eq. cbn [default].
    change (mkWorld _ _) with (open_append (pt_path a) w).2 at 1.
    rewrite content_open_append. reflexivity.
  - rewrite Hstep, Hstart. split; reflexivity.
Qed.

Lemma main_scenario_times_witness :
  trim_pitch_track_end scenario_track = Ok ([440; 440; 440]%Q, 2%nat) /\
  exists on_time off_time w',
    @main (replay scenario) (mkArgs "note.wav" 0 "pt.csv" "onoff.csv") world0
      = (Ok 0, w') /\
    content w' "onoff.csv" = content world0 "onoff.csv" ++ [(on_time, off_time)] /\
    (on_time == 0)%Q /\ (off_time == 0.02)%Q.
Proof.
  apply (@main_scenario_times (replay scenario)
           (mkArgs "note.wav" 0 "pt.csv" "onoff.csv") world0 0.01%Q);
    reflexivity.
Defined.

(** C1 as stated fails on its times: the run writes the single row
    (0, 0.02), not (0.02, 0.04); [main] counts time from the first frame of
    the trimmed track and never adds the start index. *)
Lemma main_scenario_counterexample :
  trim_pitch_track_end scenario_track = Ok ([440; 440; 440]%Q, 2%nat) /\
  exists on_time off_time,
    content (@main (replay scenario)
               (mkArgs "note.wav" 0 "pt.csv" "onoff.csv") world0).2 "onoff.csv"
      = [(on_time, off_time)] /\
    (on_time == 0)%Q /\ (off_time == 0.02)%Q /\
    ~ (on_time == 0.02)%Q /\ ~ (off_time == 0.04)%Q.
Proof.
  split; [reflexivity|].
  eexists _, _. split; [vm_compute; reflexivity|].
  repeat split; discriminate.
Qed.

End MonoAnalScenario.

(** ** Segmentation and truncation in [stem_anal.py] *)

Section Segmentation.
Import StemAnal.

Lemma drop_cons_lookup {A} (l : list A) (i : nat) (x : A) (rest : list A) :
  drop i l = x :: rest -> l !! i = Some x /\ drop (S i) l = rest.
Proof.
  revert i. induction l as [|h l IH]; intros [|i] Hd; simpl in *;
    try discriminate.
  - inversion Hd; subst. split; [reflexivity|]. apply drop_0.
  - apply IH. exact Hd.
Qed.

(** The loop of [chop_sig] visits the onsets from index [i] on; each visit
    appends the slice from that onset to the next one, or to the end of the
    buffer after the last onset, and no index is out of range. *)
Lemma chop_sig_loop_spec {A} (y : list A) (ons rest : list Z) (i : nat)
    (acc : list (list A)) :
  drop i ons = rest ->
  exists segs, chop_sig_loop y ons (enumerate_from i rest) acc = Ok (acc ++ segs) /\
    length segs = length rest /\
    forall j on, rest !! j = Some on ->
      segs !! j = Some (py_slice y on (default (len y) (ons !! S (i + j)))).
Proof.
  revert i acc. induction rest as [|on rest IH]; intros i acc Hdrop.
  - exists []. simpl. rewrite app_nil_r. repeat split. intros j o Hj. discriminate.
  - destruct (drop_cons_lookup _ _ _ _ Hdrop) as [Hi Hrest].
    pose proof (lookup_lt_Some _ _ _ Hi) as Hlt.
    destruct (IH (S i) (acc ++ [py_slice y on (default (len y) (ons !! S i))]) Hrest)
      as (segs & Hloop & Hlen & Hsegs).
    exists (py_slice y on (default (len y) (ons !! S i)) :: segs).
    split; [|split].
    + cbn [enumerate_from chop_sig_loop]. unfold len at 1.
      destruct (Z.eqb_spec (Z.of_nat i + 1) (Z.of_nat (length ons))) as [Hlast|Hlast].
      * cbn [rbind]. rewrite (lookup_ge_None_2 ons (S i)) in Hloop |- * by lia.
        cbn [from_option id] in Hloop |- *. rewrite Hloop, <- app_assoc. reflexivity.
      * destruct (lookup_lt_is_Some_2 ons (S i)) as [e He]; [lia|].
        unfold py_index. rewrite Nat.add_1_r, He. cbn [rbind].
        rewrite He in Hloop. cbn [from_option id] in Hloop |- *.
        rewrite Hloop, <- app_assoc. reflexivity.
    + simpl. rewrite Hlen. reflexivity.
    + intros [|j] o Hj; simpl in Hj.
      * inversion Hj; subst. rewrite Nat.add_0_r. reflexivity.
      * simpl. rewrite (Hsegs j o Hj).
        replace (S i + j)%nat with (i + S j)%nat by lia. reflexivity.
Qed.

(** [chop_sig] raises nothing and returns one segment per onset. *)
Lemma chop_sig_returns {A} (y : list A) (adj_on_samps : list Z) :
  exists y_chopt, chop_sig y adj_on_samps = Ok y_chopt /\
    length y_chopt = length adj_on_samps.
Proof.
  destruct (chop_sig_loop_spec y adj_on_samps adj_on_samps 0 [] (drop_0 _))
    as (segs & Hloop & Hlen & _).
  exists segs. split; [exact Hloop|exact Hlen].
Qed.

(** C7: for every buffer and every list of N onset sample indices,
    [chop_sig] returns N segments; segment [i] is the slice of the buffer
    from onset [i] to onset [i+1], and the last one runs to the end of the
    buffer.  When the two bounds lie in order inside the buffer, the segment
    holds exactly the samples from the first bound (included) to the second
    (excluded). *)
Theorem chop_sig_segments {A} (y : list A) (adj_on_samps : list Z) :
  exists y_chopt, chop_sig y adj_on_samps = Ok y_chopt /\
    length y_chopt = length adj_on_samps /\
    (forall i on, adj_on_samps !! i = Some on ->
       y_chopt !! i =
       Some (py_slice y on (default (len y) (adj_on_samps !! S i)))) /\
    (forall i (on e : nat) seg,
       adj_on_samps !! i = Some (Z.of_nat on) ->
       default (len y) (adj_on_samps !! S i) = Z.of_nat e ->
       (on <= e <= length y)%nat ->
       y_chopt !! i = Some seg ->
       length seg = (e - on)%nat /\
       forall j, (j < e - on)%nat -> seg !! j = y !! (on + j)%nat).
Proof.
  destruct (chop_sig_loop_spec y adj_on_samps adj_on_samps 0 [] (drop_0 _))
    as (segs & Hloop & Hlen & Hsegs).
  exists segs. split; [exact Hloop|]. split; [exact Hlen|]. split.
  - intros i on Hi. apply (Hsegs i on Hi).
  - intros i on e seg Hi He Hrange Hseg.
    rewrite (Hsegs i _ Hi) in Hseg. simpl in Hseg. rewrite He in Hseg.
    inversion Hseg; subst. split.
    + apply py_slice_length. exact Hrange.
    + intros j Hj. apply py_slice_lookup; assumption.
Qed.

(** The loop of [chop_sig] on three onsets in a buffer of six samples. *)
Example chop_sig_three_onsets :
  chop_sig [10; 11; 12; 13; 14; 15] [0; 2; 3]
  = Ok [[10; 11]; [12]; [13; 14; 15]].
Proof. reflexivity. Qed.

Lemma truncate_seg_short (seg : list Q) (sr : Z) :
  len seg <= sr * 4 -> truncate_seg seg sr = seg.
Proof.
  intros Hle. unfold truncate_seg.
  destruct (Z.gtb_spec (len seg) (sr * 4)); [lia|reflexivity].
Qed.

Lemma truncate_seg_long (seg : list Q) (sr : Z) :
  0 <= sr -> sr * 4 < len seg ->
  truncate_seg seg sr = take (Z.to_nat (sr * 4)) seg.
Proof.
  intros Hsr Hlt. unfold truncate_seg, len in *.
  destruct (Z.gtb_spec (Z.of_nat (length seg)) (sr * 4)); [|lia].
  unfold py_slice. rewrite (slice_bound_in_range _ 0) by lia.
  rewrite slice_bound_in_range by lia. simpl. rewrite Nat.sub_0_r. reflexivity.
Qed.

(** C6: with a sample rate that is not negative, a segment of at most
    [4 * sr] samples is analyzed as it is; of a longer one exactly the first
    [4 * sr] samples are kept, and [segment_offset] returns what it returns
    on those samples alone. *)
Theorem truncation_four_seconds `{Collaborators} (seg : list Q) (sr : Z) :
  0 <= sr ->
  (len seg <= 4 * sr -> truncate_seg seg sr = seg) /\
  (4 * sr < len seg ->
     truncate_seg seg sr = take (Z.to_nat (4 * sr)) seg /\
     len (truncate_seg seg sr) = 4 * sr /\
     forall seg_start_time,
       segment_offset seg sr seg_start_time =
       segment_offset (take (Z.to_nat (4 * sr)) seg) sr seg_start_time).
Proof.
  intros Hsr. split.
  - intros Hle. apply truncate_seg_short. lia.
  - intros Hlt. rewrite (Z.mul_comm 4 sr) in *.
    pose proof (truncate_seg_long seg sr Hsr Hlt) as Htr.
    assert (len (take (Z.to_nat (sr * 4)) seg) = sr * 4) as Hlen.
    { unfold len in *. rewrite length_take. lia. }
    split; [exact Htr|]. split; [rewrite Htr; exact Hlen|].
    intros t. unfold segment_offset, detect.
    rewrite Htr. rewrite (truncate_seg_short (take _ seg)) by lia. reflexivity.
Qed.

Lemma truncation_four_seconds_witness :
  (len (repeat 1%Q 10) <= 4 * 2 -> truncate_seg (repeat 1%Q 10) 2 = repeat 1%Q 10) /\
  (4 * 2 < len (repeat 1%Q 10) ->
     truncate_seg (repeat 1%Q 10) 2 = take (Z.to_nat (4 * 2)) (repeat 1%Q 10) /\
     len (truncate_seg (repeat 1%Q 10) 2) = 4 * 2 /\
     forall seg_start_time,
       @segment_offset (replay silence) (repeat 1%Q 10) 2 seg_start_time =
       @segment_offset (replay silence) (take (Z.to_nat (4 * 2)) (repeat 1%Q 10)) 2
         seg_start_time).
Proof.
  apply (@truncation_four_seconds (replay silence) (repeat 1%Q 10) 2). lia.
Defined.

End Segmentation.

(** ** The offset heuristic of [stem_anal.py] *)

Section OffsetHeuristic.
Import StemAnal.

Lemma enumerate_from_lookup {A} (l : list A) (i j : nat) :
  enumerate_from i l !! j = (fun x => ((i + j)%nat, x)) <$> l !! j.
Proof.
  revert i j. induction l as [|x l IH]; intros i [|j]; simpl; try reflexivity.
  - rewrite Nat.add_0_r. reflexivity.
  - rewrite IH. replace (S i + j)%nat with (i + S j)%nat by lia. reflexivity.
Qed.

Lemma arange_lookup (n f : nat) (t : Q) :
  arange n !! f = Some t -> t = inject_Z (Z.of_nat f) /\ (f < n)%nat.
Proof.
  unfold arange. intros Hf. rewrite list_lookup_fmap in Hf.
  destruct (seq 0 n !! f) as [k|] eqn:Hk; [|discriminate].
  apply lookup_seq in Hk as [-> Hlt]. simpl in Hf. inversion Hf. split; [reflexivity|lia].
Qed.

(** Every frame a filter keeps is a frame it was given, in range of the
    array it reads, with a value that passes the test. *)
Lemma select_frames_spec (a : list Q) (keep : Q -> bool) (frames out : list nat) :
  select_frames a keep frames = Ok out ->
  forall f, f ∈ out -> f ∈ frames /\ exists v, a !! f = Some v /\ keep v = true.
Proof.
  revert out. induction frames as [|g frames IH]; intros out Hsel f Hf; simpl in Hsel.
  - inversion Hsel; subst. inversion Hf.
  - unfold py_index in Hsel. destruct (a !! g) as [v|] eqn:Hg; [|discriminate].
    cbn [rbind] in Hsel. destruct (select_frames a keep frames) as [rest| |];
      try discriminate.
    cbn [rbind] in Hsel. inversion Hsel; subst. clear Hsel.
    destruct (keep v) eqn:Hkeep.
    + apply elem_of_cons in Hf as [->|Hf].
      * split; [left|eauto].
      * destruct (IH rest eq_refl f Hf) as [Hin Hv]. split; [right; exact Hin|exact Hv].
    + destruct (IH rest eq_refl f Hf) as [Hin Hv]. split; [right; exact Hin|exact Hv].
Qed.

Lemma silence_scan_spec (rms : list Q) (i : nat) (dflt : Z) :
  first_silent_from rms i dflt (silence_scan (enumerate_from i rms) dflt).
Proof.
  revert i. induction rms as [|e rms IH]; intros i.
  - right. split; [reflexivity|]. intros k e' _ Hk. discriminate.
  - cbn [enumerate_from silence_scan].
    destruct (Nat.ltb_spec i 5) as [Hearly|Hlate].
    + destruct (IH (S i)) as [(j & x & Hf & Hj & Hx & Hlow & Hprev)|[Hf Hall]].
      * left. exists (S j), x. repeat split; try assumption; try lia.
        -- intros [|k] e' Hk H5 He'; [lia|]. apply (Hprev k); [lia|lia|exact He'].
      * right. split; [exact Hf|]. intros [|k] e' H5 He'; [lia|].
        apply (Hall k); [lia|exact He'].
    + destruct (Qltb e 1e-14) eqn:Hlow.
      * left. exists 0%nat, e. repeat split; try lia.
        apply Qltb_lt. exact Hlow.
      * apply Qltb_ge in Hlow.
        destruct (IH (S i)) as [(j & x & Hf & Hj & Hx & Hxlow & Hprev)|[Hf Hall]].
        -- left. exists (S j), x. repeat split; try assumption; try lia.
           ++ intros [|k] e' Hk H5 He'.
              ** simpl in He'. inversion He'; subst. exact Hlow.
              ** apply (Hprev k); [lia|lia|exact He'].
        -- right. split; [exact Hf|]. intros [|k] e' H5 He'.
           ++ simpl in He'. inversion He'; subst. exact Hlow.
           ++ apply (Hall k); [lia|exact He'].
Qed.

Context `{Collaborators}.

(** What a successful [detect] has computed, read back from its result. *)
Lemma detect_inv (seg : list Q) (sr : Z) (d : detection) :
  detect seg sr = Ok d ->
  let seg' := hpss (truncate_seg seg sr) in
  exists to_peak_pick,
    likelihood seg' sr = Ok to_peak_pick /\
    candidates to_peak_pick
      (map (fun k => k * d_t_step d)%Q (arange (length to_peak_pick)))
      (peak_pick to_peak_pick) = Ok (d_survivors d) /\
    pt_anal seg' sr = (d_t_step d, d_pt d) /\
    d_offset_frames d =
      if (length (d_survivors d) =? 0)%nat then [silence_frame (energy seg')]
      else map Z.of_nat (d_survivors d).
Proof.
  intros Hd seg'. unfold detect in Hd. fold seg' in Hd.
  destruct (pt_anal seg' sr) as [t_step pt].
  destruct (likelihood seg' sr) as [tpp| |]; try discriminate.
  cbn [rbind] in Hd.
  destruct (candidates tpp _ (peak_pick tpp)) as [surv| |] eqn:Hc; try discriminate.
  cbn [rbind] in Hd. inversion Hd; subst. clear Hd. simpl.
  exists tpp. repeat split. exact Hc.
Qed.

(** [segment_offset] returns the time and the pitch track of the first
    detected frame. *)
Lemma segment_offset_of_detect (seg : list Q) (sr : Z) (start : Q)
    (d : detection) (frame : Z) (rest : list Z) :
  detect seg sr = Ok d -> d_offset_frames d = frame :: rest ->
  segment_offset seg sr start =
  Ok ((frames_to_time frame sr + start)%Q, py_slice (d_pt d) 0 frame, d_t_step d).
Proof.
  intros Hd Hf. unfold segment_offset. rewrite Hd. cbn [rbind].
  rewrite Hf. reflexivity.
Qed.

(** C5: when no picked peak survives the two filters, the detected offset
    frame is the first frame of index 5 or more whose energy is under
    [1e-14], and the last frame of the energy sequence when there is none;
    [segment_offset] returns the time of that frame. *)
Theorem fallback_silence_frame (seg : list Q) (sr : Z) (start : Q) (d : detection) :
  detect seg sr = Ok d -> d_survivors d = [] ->
  let rms := energy (hpss (truncate_seg seg sr)) in
  exists frame,
    d_offset_frames d = [frame] /\
    segment_offset seg sr start =
      Ok ((frames_to_time frame sr + start)%Q, py_slice (d_pt d) 0 frame, d_t_step d) /\
    ((exists i e, frame = Z.of_nat i /\ (5 <= i)%nat /\
        rms !! i = Some e /\ (e < 1e-14)%Q /\
        forall k e', (5 <= k < i)%nat -> rms !! k = Some e' -> (1e-14 <= e')%Q) \/
     (frame = len rms - 1 /\
      forall k e', (5 <= k)%nat -> rms !! k = Some e' -> (1e-14 <= e')%Q)).
Proof.
  intros Hd Hnone rms.
  destruct (detect_inv seg sr d Hd) as (tpp & _ & _ & _ & Hframes).
  rewrite Hnone in Hframes. simpl in Hframes. fold rms in Hframes.
  exists (silence_frame rms). split; [exact Hframes|]. split.
  - apply (segment_offset_of_detect seg sr start d _ [] Hd Hframes).
  - unfold silence_frame, enumerate.
    destruct (silence_scan_spec rms 0 (len rms - 1))
      as [(j & e & Hf & Hj & He & Hlow & Hprev)|[Hf Hall]].
    + left. exists j, e. repeat split; try assumption.
      intros k e' Hk He'. apply (Hprev k); [lia|lia|exact He'].
    + right. split; [exact Hf|]. intros k e' Hk He'. apply (Hall k); [lia|exact He'].
Qed.

End OffsetHeuristic.

(** On the silent recording no peak is picked and frame 5 is the first one
    past the grace period: it is the detected offset. *)
Lemma fallback_silence_frame_witness :
  let rms := @StemAnal.energy (replay silence)
               (@hpss (replay silence) (StemAnal.truncate_seg (rec_audio silence) 44100)) in
  exists frame,
    StemAnal.d_offset_frames (StemAnal.mkDetection (256 # 44100) (repeat 0%Q 7) [] [5])
      = [frame] /\
    @StemAnal.segment_offset (replay silence) (rec_audio silence) 44100 0 =
      Ok ((frames_to_time frame 44100 + 0)%Q, py_slice (repeat 0%Q 7) 0 frame,
          256 # 44100) /\
    ((exists i e, frame = Z.of_nat i /\ (5 <= i)%nat /\
        rms !! i = Some e /\ (e < 1e-14)%Q /\
        forall k e', (5 <= k < i)%nat -> rms !! k = Some e' -> (1e-14 <= e')%Q) \/
     (frame = len rms - 1 /\
      forall k e', (5 <= k)%nat -> rms !! k = Some e' -> (1e-14 <= e')%Q)).
Proof.
  apply (@fallback_silence_frame (replay silence) (rec_audio silence) 44100 0
           (StemAnal.mkDetection (256 # 44100) (repeat 0%Q 7) [] [5]));
    reflexivity.
Defined.

(** ** How early an offset can be *)

Section OffsetTimes.

Lemma frames_to_time_mono (f g sr : Z) :
  0 < sr -> f <= g -> (frames_to_time f sr <= frames_to_time g sr)%Q.
Proof.
  intros Hsr Hfg. unfold frames_to_time, Qdiv.
  apply Qmult_le_compat_r.
  - rewrite <- Zle_Qle. lia.
  - apply Qinv_le_0_compat. change 0%Q with (inject_Z 0). rewrite <- Zle_Qle. lia.
Qed.

Lemma frames_to_time_nonneg (f sr : Z) :
  0 < sr -> 0 <= f -> (0 <= frames_to_time f sr)%Q.
Proof.
  intros Hsr Hf. apply Qle_trans with (frames_to_time 0 sr).
  - unfold frames_to_time. simpl. unfold Qdiv. rewrite Qmult_0_l. apply Qle_refl.
  - apply frames_to_time_mono; assumption.
Qed.

(** Frame [f] on the analyzer's clock, when its step is one hop. *)
Lemma frames_to_time_step (f sr : Z) (t_step : Q) :
  (t_step == 256 / inject_Z sr)%Q ->
  (inject_Z f * t_step == frames_to_time f sr)%Q.
Proof.
  intros ->. unfold frames_to_time, Qdiv. rewrite inject_Z_mult.
  change (inject_Z 256) with 256%Q. ring.
Qed.

(** The loop of [note_anal.segment_offset] ends within its fuel, at the
    frame it started from or later. *)
Lemma advance_offset_spec (lop : list Q) (fuel i : nat) :
  (length lop - i < fuel)%nat ->
  exists f, NoteAnal.advance_offset lop fuel i = Ok f /\ (i <= f)%nat.
Proof.
  revert i. induction fuel as [|fuel IH]; intros i Hfuel; [lia|].
  cbn [NoteAnal.advance_offset]. unfold len.
  destruct (Z.ltb_spec (Z.of_nat i) (Z.of_nat (length lop))) as [Hin|Hout].
  - destruct (lookup_lt_is_Some_2 lop i) as [v Hv]; [lia|].
    unfold py_index. rewrite Hv. cbn [rbind].
    destruct (Qltb v 8.5).
    + destruct (IH (S i)) as (f & Hf & Hle); [lia|].
      exists f. split; [exact Hf|lia].
    + exists i. split; [reflexivity|lia].
  - exists i. split; [reflexivity|lia].
Qed.

Context `{Collaborators}.

(** [note_anal.segment_offset] always returns, with the time of a frame
    that is frame 10 or a later one. *)
Lemma note_segment_offset_spec (seg : list Q) (sr : Z) (start : Q) :
  exists f : nat,
    NoteAnal.segment_offset seg sr start =
      Ok ((frames_to_time (Z.of_nat f) sr + start)%Q,
          py_slice (NoteAnal.pt_anal seg sr).2 0 (Z.of_nat f),
          (NoteAnal.pt_anal seg sr).1) /\
    (10 <= f)%nat.
Proof.
  unfold NoteAnal.segment_offset, NoteAnal.offset_frame_of.
  destruct (NoteAnal.pt_anal seg sr) as [t_step pt].
  destruct (advance_offset_spec (NoteAnal.log_offset_prob_of seg sr)
              (S (length (NoteAnal.log_offset_prob_of seg sr))) 10)
    as (f & Hf & Hle); [lia|].
  exists f. rewrite Hf. cbn [rbind fst snd]. split; [reflexivity|exact Hle].
Qed.

(** A frame that survives the filters of [stem_anal.segment_offset] lies
    more than 0.06 s after the start on the analyzer's clock. *)
Lemma survivor_after_minimum (seg : list Q) (sr : Z) (d : StemAnal.detection) (f : nat) :
  StemAnal.detect seg sr = Ok d -> f ∈ StemAnal.d_survivors d ->
  (0.06 < inject_Z (Z.of_nat f) * StemAnal.d_t_step d)%Q.
Proof.
  intros Hd Hf.
  destruct (detect_inv seg sr d Hd) as (tpp & _ & Hc & _ & _).
  unfold StemAnal.candidates in Hc.
  destruct (StemAnal.select_frames tpp _ (peak_pick tpp)) as [kept| |];
    try discriminate.
  cbn [rbind] in Hc.
  destruct (select_frames_spec _ _ _ _ Hc f Hf) as (_ & t & Ht & Hkeep).
  rewrite list_lookup_fmap in Ht.
  destruct (arange (length tpp) !! f) as [k|] eqn:Hk; [|discriminate].
  apply arange_lookup in Hk as [-> _]. simpl in Ht. inversion Ht; subst.
  apply Qltb_lt. exact Hkeep.
Qed.

(** C2, as amended: in [stem_anal.segment_offset], when a picked peak
    survives the filters, the returned offset is the time of a frame [f]
    with [f * t_step > 0.06], [t_step] being the analyzer's time step; it is
    more than 0.06 s after the segment start when that step equals the hop
    of 256 samples.  In [note_anal.segment_offset] the offset is at frame 10
    or later, that is at least [2560 / sr] seconds after the segment start.
    No bound is stated for the fallback frame. *)
Theorem offset_not_before_minimum :
  (forall seg sr start d,
     StemAnal.detect seg sr = Ok d -> StemAnal.d_survivors d <> [] ->
     exists f : nat,
       StemAnal.segment_offset seg sr start =
         Ok ((frames_to_time (Z.of_nat f) sr + start)%Q,
             py_slice (StemAnal.d_pt d) 0 (Z.of_nat f), StemAnal.d_t_step d) /\
       (0.06 < inject_Z (Z.of_nat f) * StemAnal.d_t_step d)%Q /\
       ((StemAnal.d_t_step d == 256 / inject_Z sr)%Q ->
        (0.06 < frames_to_time (Z.of_nat f) sr)%Q)) /\
  (forall seg sr start,
     exists f : nat,
       NoteAnal.segment_offset seg sr start =
         Ok ((frames_to_time (Z.of_nat f) sr + start)%Q,
             py_slice (NoteAnal.pt_anal seg sr).2 0 (Z.of_nat f),
             (NoteAnal.pt_anal seg sr).1) /\
       (10 <= f)%nat /\
       (0 < sr -> (frames_to_time 10 sr <= frames_to_time (Z.of_nat f) sr)%Q)).
Proof.
  split.
  - intros seg sr start d Hd Hsome.
    destruct (detect_inv seg sr d Hd) as (tpp & _ & _ & _ & Hframes).
    destruct (StemAnal.d_survivors d) as [|f rest] eqn:Hsurv; [congruence|].
    simpl in Hframes. exists f.
    assert (0.06 < inject_Z (Z.of_nat f) * StemAnal.d_t_step d)%Q as Hlate.
    { apply (survivor_after_minimum seg sr d f Hd). rewrite Hsurv. left. }
    split; [|split].
    + apply (segment_offset_of_detect seg sr start d _ _ Hd Hframes).
    + exact Hlate.
    + intros Hstep. rewrite <- (frames_to_time_step _ _ _ Hstep). exact Hlate.
  - intros seg sr start.
    destruct (note_segment_offset_spec seg sr start) as (f & Hf & Hle).
    exists f. split; [exact Hf|]. split; [exact Hle|].
    intros Hsr. apply frames_to_time_mono; lia.
Qed.

End OffsetTimes.

(** On the decaying note the peak at frame 19 survives; on the analyzer's
    clock it lies 0.11 s after the start. *)
Lemma offset_not_before_minimum_witness :
  exists f : nat,
    @StemAnal.segment_offset (replay decaying_note) (rec_audio decaying_note) 44100 0 =
      Ok ((frames_to_time (Z.of_nat f) 44100 + 0)%Q,
          py_slice (rec_pitch decaying_note) 0 (Z.of_nat f), 256 # 44100) /\
    (0.06 < inject_Z (Z.of_nat f) * (256 # 44100))%Q /\
    (((256 # 44100) == 256 / inject_Z 44100)%Q ->
     (0.06 < frames_to_time (Z.of_nat f) 44100)%Q).
Proof.
  apply (proj1 (@offset_not_before_minimum (replay decaying_note))
           (rec_audio decaying_note) 44100 0%Q
           (StemAnal.mkDetection (256 # 44100) (rec_pitch decaying_note) [19%nat] [19])).
  - vm_compute. reflexivity.
  - discriminate.
Defined.

(** C2 as stated fails in both scripts.  On 1536 samples of silence at
    44.1 kHz no peak survives, [stem_anal.segment_offset] falls back to
    frame 5 and returns 0.029 s; [note_anal.segment_offset] returns the time
    of frame 10, 0.058 s.  Both are earlier than 0.06 s after the start. *)
Lemma offset_minimum_counterexample :
  (exists d, @StemAnal.detect (replay silence) (rec_audio silence) 44100 = Ok d /\
     StemAnal.d_survivors d = [] /\ StemAnal.d_offset_frames d = [5]) /\
  (exists t pt t_step,
     @StemAnal.segment_offset (replay silence) (rec_audio silence) 44100 0
       = Ok (t, pt, t_step) /\ (t == 1280 # 44100)%Q /\ (t < 0 + 0.06)%Q) /\
  (exists t pt t_step,
     @NoteAnal.segment_offset (replay silence) (rec_audio silence) 44100 0
       = Ok (t, pt, t_step) /\ (t == 2560 # 44100)%Q /\ (t < 0 + 0.06)%Q).
Proof.
  split; [|split].
  - eexists. split; [vm_compute; reflexivity|]. split; reflexivity.
  - eexists _, _, _. split; [vm_compute; reflexivity|]. split; reflexivity.
  - eexists _, _, _. split; [vm_compute; reflexivity|]. split; reflexivity.
Qed.

(** ** File effects of the scripts *)

Section FileEffects.

Lemma bind_ok {A B} (m : M A) (k : A -> M B) (w : world) (a : A) :
  (m w).1 = Ok a -> bind m k w = k a (m w).2.
Proof. unfold bind. destruct (m w) as [r w']. simpl. intros ->. reflexivity. Qed.

Lemma file_inv_ret {A} P p (a : A) : file_inv P p (ret a).
Proof. intros w Hw. exact Hw. Qed.

Lemma file_inv_lift {A} P p (r : result A) : file_inv P p (lift r).
Proof. intros w Hw. exact Hw. Qed.

Lemma file_inv_print P p s : file_inv P p (print s).
Proof. intros w Hw. exact Hw. Qed.

Lemma file_inv_open_append P p q : file_inv P p (open_append q).
Proof. intros w Hw. rewrite content_open_append. exact Hw. Qed.

Lemma file_inv_writerow (P : list row -> Prop) p q r :
  (forall c, P c -> P (c ++ [r])) -> file_inv P p (writerow q r).
Proof.
  intros Hsnoc w Hw. rewrite content_writerow.
  destruct (decide (q = p)); [apply Hsnoc|]; exact Hw.
Qed.

Lemma file_inv_writerow_other P p q r : q <> p -> file_inv P p (writerow q r).
Proof.
  intros Hne w Hw. rewrite content_writerow.
  destruct (decide (q = p)); [contradiction|exact Hw].
Qed.

Lemma file_inv_open_write_other P p q : q <> p -> file_inv P p (open_write q).
Proof.
  intros Hne w Hw. rewrite content_open_write.
  destruct (decide (q = p)); [contradiction|exact Hw].
Qed.

Lemma file_inv_bind {A B} P p (m : M A) (k : A -> M B) :
  file_inv P p m -> (forall a, (exists w, (m w).1 = Ok a) -> file_inv P p (k a)) ->
  file_inv P p (bind m k).
Proof.
  intros Hm Hk w Hw. unfold bind. specialize (Hm w Hw).
  destruct (m w) as [[a|e|] w'] eqn:Hmw; simpl in Hm |- *; try exact Hm.
  apply Hk; [|exact Hm]. exists w. rewrite Hmw. reflexivity.
Qed.

Lemma file_inv_for_each {A} P p (l : list A) (body : A -> M unit) :
  (forall x, x ∈ l -> file_inv P p (body x)) -> file_inv P p (for_each l body).
Proof.
  induction l as [|x l IH]; intros Hbody; simpl.
  - apply file_inv_ret.
  - apply file_inv_bind.
    + apply Hbody. left.
    + intros _ _. apply IH. intros y Hy. apply Hbody. right. exact Hy.
Qed.

Lemma file_post_bind {A B} P p (m : M A) (k : A -> M B) :
  file_post P p m -> (forall a, file_inv P p (k a)) -> file_post P p (bind m k).
Proof.
  intros Hm Hk w. unfold bind. specialize (Hm w).
  destruct (m w) as [[a|e|] w']; simpl in Hm |- *; try exact Hm.
  apply Hk. exact Hm.
Qed.

Lemma file_post_open_write P p : P [] -> file_post P p (open_write p).
Proof.
  intros Hnil w. rewrite content_open_write.
  destruct (decide (p = p)); [exact Hnil|contradiction].
Qed.

Lemma file_same_ret {A} p (a : A) : file_same p (ret a).
Proof. intros w1 w2. split; [reflexivity|]. intros Hc. exact Hc. Qed.

Lemma file_same_lift {A} p (r : result A) : file_same p (lift r).
Proof. intros w1 w2. split; [reflexivity|]. intros Hc. exact Hc. Qed.

Lemma file_same_print p s : file_same p (print s).
Proof. intros w1 w2. split; [reflexivity|]. intros Hc. exact Hc. Qed.

Lemma file_same_open_append p q : file_same p (open_append q).
Proof.
  intros w1 w2. split; [reflexivity|]. intros Hc.
  rewrite !content_open_append. exact Hc.
Qed.

Lemma file_same_open_write p q : file_same p (open_write q).
Proof.
  intros w1 w2. split; [reflexivity|]. intros Hc.
  rewrite !content_open_write. destruct (decide (q = p)); [reflexivity|exact Hc].
Qed.

Lemma file_same_writerow p q r : file_same p (writerow q r).
Proof.
  intros w1 w2. split; [reflexivity|]. intros Hc.
  rewrite !content_writerow. destruct (decide (q = p)); [rewrite Hc|]; congruence.
Qed.

Lemma file_same_bind {A B} p (m : M A) (k : A -> M B) :
  file_same p m -> (forall a, file_same p (k a)) -> file_same p (bind m k).
Proof.
  intros Hm Hk w1 w2. unfold bind. destruct (Hm w1 w2) as [Hres Hcont].
  destruct (m w1) as [r1 v1], (m w2) as [r2 v2]. simpl in Hres, Hcont. subst r2.
  destruct r1 as [a|e|]; simpl.
  - destruct (Hk a v1 v2) as [Hr Hc]. split; [exact Hr|].
    intros Hstart. apply Hc, Hcont, Hstart.
  - split; [reflexivity|exact Hcont].
  - split; [reflexivity|exact Hcont].
Qed.

Lemma file_same_for_each {A} p (l : list A) (body : A -> M unit) :
  (forall x, file_same p (body x)) -> file_same p (for_each l body).
Proof.
  intros Hbody. induction l as [|x l IH]; simpl.
  - apply file_same_ret.
  - apply file_same_bind; [apply Hbody|intros _; exact IH].
Qed.

Lemma file_reset_open_write p : file_reset p (open_write p).
Proof.
  intros w1 w2. split; [reflexivity|]. rewrite !content_open_write.
  destruct (decide (p = p)); [reflexivity|contradiction].
Qed.

Lemma file_reset_bind {A B} p (m : M A) (k : A -> M B) :
  file_reset p m -> (forall a, file_same p (k a)) -> file_reset p (bind m k).
Proof.
  intros Hm Hk w1 w2. unfold bind. destruct (Hm w1 w2) as [Hres Hcont].
  destruct (m w1) as [r1 v1], (m w2) as [r2 v2]. simpl in Hres, Hcont. subst r2.
  destruct r1 as [a|e|]; simpl.
  - destruct (Hk a v1 v2) as [Hr Hc]. split; [exact Hr|]. apply Hc, Hcont.
  - split; [reflexivity|exact Hcont].
  - split; [reflexivity|exact Hcont].
Qed.
End FileEffects.

(** One step of a proof that a program keeps a property of a file. *)
Ltac file_inv_step :=
  lazymatch goal with
  | |- file_inv _ _ (ret _) => apply file_inv_ret
  | |- file_inv _ _ (lift _) => apply file_inv_lift
  | |- file_inv _ _ (print _) => apply file_inv_print
  | |- file_inv _ _ (open_append _) => apply file_inv_open_append
  | |- file_inv _ _ (bind _ _) => apply file_inv_bind; [|intros ? ?]
  | |- file_inv _ _ (for_each _ _) => apply file_inv_for_each; intros ? ?
  | |- file_inv _ _ (let '(_, _) := ?x in _) => destruct x
  | |- file_inv _ _ (if ?b then _ else _) => destruct b eqn:?
  end.

Ltac file_same_step :=
  lazymatch goal with
  | |- file_same _ (ret _) => apply file_same_ret
  | |- file_same _ (lift _) => apply file_same_lift
  | |- file_same _ (print _) => apply file_same_print
  | |- file_same _ (open_append _) => apply file_same_open_append
  | |- file_same _ (open_write _) => apply file_same_open_write
  | |- file_same _ (writerow _ _) => apply file_same_writerow
  | |- file_same _ (bind _ _) => apply file_same_bind; [|intros ?]
  | |- file_same _ (for_each _ _) => apply file_same_for_each; intros ?
  | |- file_same _ (let '(_, _) := ?x in _) => destruct x
  | |- file_same _ (if ?b then _ else _) => destruct b
  end.

Section ScriptFiles.

Lemma prefix_snoc (old c : list row) (r : row) :
  old `prefix_of` c -> old `prefix_of` c ++ [r].
Proof. intros Hp. apply prefix_app_r. exact Hp. Qed.

Lemma pt_csv_onoff_csv (outname : string) :
  StemAnal.pt_csv outname <> StemAnal.onoff_csv outname.
Proof.
  unfold StemAnal.pt_csv, StemAnal.onoff_csv. intros Heq.
  apply (inj (String.app outname)) in Heq. discriminate Heq.
Qed.

Context `{Collaborators}.

(** The three programs that open their files with ['a'] only. *)
Lemma mono_main_appends (a : MonoAnal.args) (old : list row) (q : string) :
  file_inv (fun c => old `prefix_of` c) q (MonoAnal.main a).
Proof.
  unfold MonoAnal.main. destruct (load _) as [y fs].
  destruct (MonoAnal.mono_anal y fs) as [t_step pitch_track].
  repeat file_inv_step; apply file_inv_writerow; intros c; apply prefix_snoc.
Qed.

Lemma note_main_appends (a : NoteAnal.args) (old : list row) (q : string) :
  file_inv (fun c => old `prefix_of` c) q (NoteAnal.main a).
Proof.
  unfold NoteAnal.main. destruct (load _) as [y sr].
  repeat file_inv_step; apply file_inv_writerow; intros c; apply prefix_snoc.
Qed.

Lemma stem_note_anal_appends (y : list Q) (fs : Z) (t : Q) (outname : string)
    (old : list row) (q : string) :
  file_inv (fun c => old `prefix_of` c) q (StemAnal.note_anal y fs t outname).
Proof.
  unfold StemAnal.note_anal.
  repeat file_inv_step; apply file_inv_writerow; intros c; apply prefix_snoc.
Qed.

Lemma main_step_same (p outname : string) (sr n : Z) (item : nat * (list Q * Q)) :
  file_same p (StemAnal.main_step outname sr n item).
Proof.
  unfold StemAnal.main_step. destruct item as [k [seg t]].
  repeat file_same_step.
Qed.

(** [stem_anal.main] always gets past [chop_sig] and its first [print];
    then come the two [open(.., 'w')] and the loop. *)
Lemma stem_main_unfold (a : StemAnal.args) :
  exists y_chopt,
    forall w, StemAnal.main a w =
      bind (open_write (StemAnal.pt_csv (StemAnal.outdir a)))
        (fun _ => bind (open_write (StemAnal.onoff_csv (StemAnal.outdir a)))
           (fun _ => bind (StemAnal.main_loop (StemAnal.outdir a)
                             (load (StemAnal.wavpath a)).2 y_chopt
                             (onset_times (StemAnal.onsetjams a)))
                          (fun _ => ret 0)))
        (print "about to clear csv files" w).2.
Proof.
  unfold StemAnal.main. destruct (load (StemAnal.wavpath a)) as [y sr]. simpl.
  destruct (chop_sig_returns y (time_to_samples (onset_times (StemAnal.onsetjams a)) sr))
    as (y_chopt & Hchop & _).
  exists y_chopt. intros w. rewrite Hchop. reflexivity.
Qed.

Lemma main_loop_same (p outname : string) (sr : Z) (y_chopt : list (list Q))
    (times : list Q) :
  file_same p (StemAnal.main_loop outname sr y_chopt times).
Proof. unfold StemAnal.main_loop. file_same_step. apply main_step_same. Qed.

(** What the pitch-track file and the onset/offset file hold after
    [stem_anal.main] does not depend on what they held before. *)
Lemma stem_main_resets (a : StemAnal.args) (w1 w2 : world) :
  content (StemAnal.main a w1).2 (StemAnal.pt_csv (StemAnal.outdir a)) =
  content (StemAnal.main a w2).2 (StemAnal.pt_csv (StemAnal.outdir a)) /\
  content (StemAnal.main a w1).2 (StemAnal.onoff_csv (StemAnal.outdir a)) =
  content (StemAnal.main a w2).2 (StemAnal.onoff_csv (StemAnal.outdir a)).
Proof.
  destruct (stem_main_unfold a) as (y_chopt & Hmain). rewrite !Hmain. split.
  - apply file_reset_bind; [apply file_reset_open_write|].
    intros _. repeat file_same_step. apply main_loop_same.
  - set (v1 := (print _ w1).2). set (v2 := (print _ w2).2).
    change (bind (open_write ?p) ?k ?v) with (k tt (open_write p v).2).
    cbv beta. apply file_reset_bind; [apply file_reset_open_write|].
    intros _. repeat file_same_step. apply main_loop_same.
Qed.
(** C4, as amended: [mono_anal.main], [note_anal.main] and
    [stem_anal.note_anal] open their CSV files in append mode only, so that
    whatever a file held before a run is a prefix of what it holds after
    it; [stem_anal.main] opens both of its output files in write mode
    before its loop, so that what they hold after a run does not depend on
    what they held before. *)
Theorem output_files_append_or_reset :
  (forall a w q, content w q `prefix_of` content (MonoAnal.main a w).2 q) /\
  (forall a w q, content w q `prefix_of` content (NoteAnal.main a w).2 q) /\
  (forall y fs t outname w q,
     content w q `prefix_of` content (StemAnal.note_anal y fs t outname w).2 q) /\
  (forall a w1 w2,
     content (StemAnal.main a w1).2 (StemAnal.pt_csv (StemAnal.outdir a)) =
     content (StemAnal.main a w2).2 (StemAnal.pt_csv (StemAnal.outdir a)) /\
     content (StemAnal.main a w1).2 (StemAnal.onoff_csv (StemAnal.outdir a)) =
     content (StemAnal.main a w2).2 (StemAnal.onoff_csv (StemAnal.outdir a))).
Proof.
  repeat split.
  - intros a w q. apply (mono_main_appends a (content w q) q w). reflexivity.
  - intros a w q. apply (note_main_appends a (content w q) q w). reflexivity.
  - intros y fs t outname w q.
    apply (stem_note_anal_appends y fs t outname (content w q) q w). reflexivity.
  - apply stem_main_resets.
  - apply stem_main_resets.
Qed.

Lemma main_step_pt_positive (outname : string) (sr n : Z)
    (item : nat * (list Q * Q)) :
  file_inv (Forall (fun r : row => (0 < r.2)%Q)) (StemAnal.pt_csv outname)
           (StemAnal.main_step outname sr n item).
Proof.
  unfold StemAnal.main_step. destruct item as [k [seg t]].
  repeat file_inv_step.
  - apply file_inv_writerow. intros c Hc. apply Forall_app. split; [exact Hc|].
    repeat constructor. apply Qltb_lt. assumption.
  - apply file_inv_writerow_other. apply not_eq_sym, pt_csv_onoff_csv.
Qed.

(** C10: whatever the pitch-track file held and whatever the analyzer
    returns, every row the file holds after [stem_anal.main] has a
    frequency that is strictly positive: the file is emptied first and the
    loop writes a row only under [f > 0]. *)
Theorem pitch_track_rows_positive (a : StemAnal.args) (w : world) :
  Forall (fun r : row => (0 < r.2)%Q)
         (content (StemAnal.main a w).2 (StemAnal.pt_csv (StemAnal.outdir a))).
Proof.
  destruct (stem_main_unfold a) as (y_chopt & Hmain). rewrite Hmain.
  apply file_post_bind; [apply file_post_open_write; constructor|].
  intros _. apply file_inv_bind.
  - apply file_inv_open_write_other. apply not_eq_sym, pt_csv_onoff_csv.
  - intros _ _. apply file_inv_bind; [|intros; apply file_inv_ret].
    unfold StemAnal.main_loop. apply file_inv_for_each. intros item _.
    apply main_step_pt_positive.
Qed.

End ScriptFiles.

(** C4 as stated fails for [stem_anal.main]: run on the decaying note with
    output files that hold one row each, it leaves 17 new rows in the
    pitch-track file and one new row in the onset/offset file; the rows the
    files held are gone. *)
Lemma stem_main_erases_counterexample :
  let w := used_world "out_pt.csv" "out_onoff.csv" in
  let w' := (@StemAnal.main (replay decaying_note)
               (StemAnal.mkArgs "stem.wav" "out" "onsets.jams") w).2 in
  (content w "out_pt.csv" = [(1, 440)%Q] /\
   length (content w' "out_pt.csv") = 17%nat /\
   ~ content w "out_pt.csv" `prefix_of` content w' "out_pt.csv") /\
  (content w "out_onoff.csv" = [(1, 2)%Q] /\
   content w' "out_onoff.csv" = [(0%Q, 4864 # 44100)] /\
   ~ content w "out_onoff.csv" `prefix_of` content w' "out_onoff.csv").
Proof.
  cbv zeta. split; (split; [reflexivity|split; [vm_compute; reflexivity|]]).
  - intros [k Hk]. vm_compute in Hk. discriminate Hk.
  - intros [k Hk]. vm_compute in Hk. discriminate Hk.
Qed.

(** The same run reads 19 frames of pitch track, two of them unvoiced, and
    writes the 17 others. *)
Example pitch_track_rows_written :
  let w' := (@StemAnal.main (replay decaying_note)
               (StemAnal.mkArgs "stem.wav" "out" "onsets.jams") world0).2 in
  length (content w' "out_pt.csv") = 17%nat /\
  exists t pt t_step,
    @StemAnal.segment_offset (replay decaying_note) (rec_audio decaying_note) 44100 0
      = Ok (t, pt, t_step) /\ pt = repeat 0%Q 2 ++ repeat 440%Q 17.
Proof.
  split; [vm_compute; reflexivity|].
  eexists _, _, _. split; vm_compute; reflexivity.
Qed.

(** ** Offsets never precede onsets *)

Section OnsetOffsetOrder.

Lemma Qle_plus_nonneg (x start : Q) : (0 <= x)%Q -> (start <= x + start)%Q.
Proof.
  intros Hx. rewrite <- (Qplus_0_l start) at 1.
  apply Qplus_le_compat; [exact Hx|apply Qle_refl].
Qed.

Lemma silence_frame_nonneg (rms : list Q) :
  rms <> [] -> 0 <= StemAnal.silence_frame rms.
Proof.
  intros Hne. unfold StemAnal.silence_frame, enumerate.
  destruct (silence_scan_spec rms 0 (len rms - 1)) as [(j & e & -> & _)|[-> _]];
    [lia|].
  unfold len. destruct rms; [congruence|simpl; lia].
Qed.

Lemma for_each_writerow_ok (p : string) (rows : list row) (w : world) :
  (for_each rows (fun r => writerow p r) w).1 = Ok tt.
Proof.
  revert w. induction rows as [|r rows IH]; intros w; [reflexivity|].
  simpl. rewrite (bind_ok _ _ _ tt) by reflexivity. apply IH.
Qed.

(** The end of [main] in the single-note scripts, and of [note_anal]: the
    onset/offset row is the last one of its file. *)
Lemma onoff_row_last (p : string) (r : row) (w : world) :
  ((open_append p ;; writerow p r ;; ret 0)%io w).1 = Ok 0 /\
  exists rows,
    content ((open_append p ;; writerow p r ;; ret 0)%io w).2 p = rows ++ [r].
Proof.
  split; [reflexivity|].
  exists (content w p). unfold bind, open_append, writerow, ret. cbn [fst snd].
  rewrite content_mk, lookup_insert_eq. cbn [from_option id].
  rewrite content_mk, lookup_insert_eq. reflexivity.
Qed.

Lemma arange_length (n : nat) : length (arange n) = n.
Proof. unfold arange. rewrite length_map, length_seq. reflexivity. Qed.

(** In [mono_anal.main], [p_time[0] <= p_time[-1]] when the step is not
    negative. *)
Lemma p_time_ordered (n : nat) (t_step start : Q) :
  (0 <= t_step)%Q ->
  let p_time := map (fun k => k * t_step + start)%Q (arange (S n)) in
  (MonoAnal.first_time p_time <= MonoAnal.last_time p_time)%Q.
Proof.
  intros Hstep p_time. subst p_time.
  unfold MonoAnal.first_time, MonoAnal.last_time, arange.
  rewrite seq_S, !map_app. cbn [map]. rewrite last_last. simpl.
  destruct n as [|n]; simpl; [apply Qle_refl|].
  apply Qplus_le_compat; [|apply Qle_refl].
  apply Qmult_le_compat_r; [|exact Hstep].
  rewrite <- Zle_Qle. lia.
Qed.

Context `{Collaborators}.

(** With a positive sample rate and at least one frame of energy, the
    offset [stem_anal.segment_offset] returns is not before the start. *)
Lemma stem_segment_offset_after_start (seg : list Q) (sr : Z) (start off : Q)
    (pt : list Q) (t_step : Q) :
  0 < sr -> rmse (hpss (StemAnal.truncate_seg seg sr)) <> [] ->
  StemAnal.segment_offset seg sr start = Ok (off, pt, t_step) ->
  (start <= off)%Q.
Proof.
  intros Hsr Hrms Hso.
  destruct (StemAnal.detect seg sr) as [d| |] eqn:Hd;
    try (unfold StemAnal.segment_offset in Hso; rewrite Hd in Hso; discriminate).
  destruct (detect_inv seg sr d Hd) as (tpp & _ & _ & _ & Hframes).
  assert (exists frame rest, StemAnal.d_offset_frames d = frame :: rest /\ 0 <= frame)
    as (frame & rest & Hfr & Hpos).
  { destruct (StemAnal.d_survivors d) as [|f fs]; simpl in Hframes.
    - eexists _, _. split; [exact Hframes|]. apply silence_frame_nonneg.
      unfold StemAnal.energy. destruct (rmse _); [congruence|discriminate].
    - eexists _, _. split; [exact Hframes|]. lia. }
  rewrite (segment_offset_of_detect seg sr start d frame rest Hd Hfr) in Hso.
  inversion Hso; subst. apply Qle_plus_nonneg, frames_to_time_nonneg; assumption.
Qed.

Lemma main_step_onoff_ordered (outname : string) (sr n : Z)
    (item : nat * (list Q * Q)) :
  0 < sr -> (forall seg, rmse seg <> []) ->
  file_inv (Forall (fun r : row => (r.1 <= r.2)%Q)) (StemAnal.onoff_csv outname)
           (StemAnal.main_step outname sr n item).
Proof.
  intros Hsr Hrms. unfold StemAnal.main_step. destruct item as [k [seg t]].
  repeat file_inv_step.
  - apply file_inv_writerow_other. apply pt_csv_onoff_csv.
  - apply file_inv_writerow. intros c Hc. apply Forall_app. split; [exact Hc|].
    repeat constructor. simpl.
    match goal with
    | Hex : exists _, (lift _ _).1 = Ok _ |- _ => destruct Hex as [w0 Hw0]; simpl in Hw0
    end.
    eapply stem_segment_offset_after_start; [exact Hsr|apply Hrms|exact Hw0].
Qed.

(** C8: the offset of every onset/offset pair the scripts write is not
    before its onset.  [mono_anal.main] writes the first and last time of
    the trimmed track, in order when the analyzer's step is not negative;
    [note_anal.main], [stem_anal.note_anal] and [stem_anal.main] write the
    segment start and the offset of [segment_offset], which lies at a frame
    that is not negative when the sample rate is positive and the energy
    has at least one frame. *)
Theorem offset_not_before_onset :
  (forall (a : MonoAnal.args) w tr st,
     let track := MonoAnal.mono_anal (load (MonoAnal.wav_path a)).1
                                     (load (MonoAnal.wav_path a)).2 in
     MonoAnal.trim_pitch_track_end track.2 = Ok (tr, st) -> tr <> [] ->
     (0 <= track.1)%Q ->
     (MonoAnal.main a w).1 = Ok 0 /\
     exists rows on_time off_time,
       content (MonoAnal.main a w).2 (MonoAnal.onoff_path a)
         = rows ++ [(on_time, off_time)] /\
       (on_time <= off_time)%Q) /\
  (forall (a : NoteAnal.args) w,
     0 < (load (NoteAnal.wav_path a)).2 ->
     (NoteAnal.main a w).1 = Ok 0 /\
     exists rows offset_time,
       content (NoteAnal.main a w).2 (NoteAnal.onoff_path a)
         = rows ++ [(NoteAnal.seg_start_time a, offset_time)] /\
       (NoteAnal.seg_start_time a <= offset_time)%Q) /\
  (forall y fs seg_start_time outname w res,
     0 < fs -> rmse (hpss (StemAnal.truncate_seg y fs)) <> [] ->
     StemAnal.segment_offset y fs seg_start_time = Ok res ->
     (StemAnal.note_anal y fs seg_start_time outname w).1 = Ok 0 /\
     exists rows offset_time,
       content (StemAnal.note_anal y fs seg_start_time outname w).2
               (StemAnal.onoff_csv outname)
         = rows ++ [(seg_start_time, offset_time)] /\
       (seg_start_time <= offset_time)%Q) /\
  (forall (a : StemAnal.args) w,
     0 < (load (StemAnal.wavpath a)).2 -> (forall seg, rmse seg <> []) ->
     Forall (fun r : row => (r.1 <= r.2)%Q)
            (content (StemAnal.main a w).2 (StemAnal.onoff_csv (StemAnal.outdir a)))).
Proof.
  split; [|split; [|split]].
  - intros a w tr st track Htrim Hne Hstep. subst track.
    assert (exists r v,
              MonoAnal.main a w =
              (open_append (MonoAnal.onoff_path a) ;;
               writerow (MonoAnal.onoff_path a) r ;; ret 0)%io v /\
              (r.1 <= r.2)%Q) as (r & v & Hmain & Hord).
    { unfold MonoAnal.main. destruct (load (MonoAnal.wav_path a)) as [y fs].
      simpl in Htrim, Hstep.
      destruct (MonoAnal.mono_anal y fs) as [t_step pitch_track].
      simpl in Htrim, Hstep.
      rewrite (bind_ok _ _ _ (tr, st)) by (simpl; exact Htrim).
      cbn [lift snd]. destruct tr as [|x tr]; [congruence|].
      cbn [length]. unfold len. rewrite length_map, arange_length.
      change (Z.of_nat (S (length tr)) =? 0) with false. cbv iota.
      rewrite (bind_ok _ _ _ tt) by reflexivity.
      rewrite (bind_ok _ _ _ tt) by apply for_each_writerow_ok.
      eexists (_, _), _. split; [reflexivity|].
      cbn [fst snd]. apply p_time_ordered. exact Hstep. }
    rewrite Hmain. destruct r as [on_time off_time].
    destruct (onoff_row_last (MonoAnal.onoff_path a) (on_time, off_time) v)
      as [Hres [rows Hrows]].
    split; [exact Hres|]. exists rows, on_time, off_time.
    split; [exact Hrows|exact Hord].
  - intros a w Hsr.
    assert (exists offset_time v,
              NoteAnal.main a w =
              (open_append (NoteAnal.onoff_path a) ;;
               writerow (NoteAnal.onoff_path a)
                        (NoteAnal.seg_start_time a, offset_time) ;; ret 0)%io v /\
              (NoteAnal.seg_start_time a <= offset_time)%Q)
      as (off & v & Hmain & Hord).
    { unfold NoteAnal.main.
      destruct (load (NoteAnal.wav_path a)) as [y sr]. simpl in Hsr.
      destruct (note_segment_offset_spec y sr (NoteAnal.seg_start_time a))
        as (f & Hf & Hle).
      rewrite (bind_ok (lift (NoteAnal.segment_offset y sr (NoteAnal.seg_start_time a)))
                 _ w _ Hf). cbn [lift snd].
      rewrite (bind_ok _ _ _ tt) by reflexivity.
      rewrite (bind_ok _ _ _ tt) by apply for_each_writerow_ok.
      eexists _, _. split; [reflexivity|].
      apply Qle_plus_nonneg, frames_to_time_nonneg; lia. }
    rewrite Hmain.
    destruct (onoff_row_last (NoteAnal.onoff_path a)
                (NoteAnal.seg_start_time a, off) v) as [Hres [rows Hrows]].
    split; [exact Hres|]. exists rows, off. split; [exact Hrows|exact Hord].
  - intros y fs t outname w [[off pt] t_step] Hfs Hrms Hso.
    assert (exists v,
              StemAnal.note_anal y fs t outname w =
              (open_append (StemAnal.onoff_csv outname) ;;
               writerow (StemAnal.onoff_csv outname) (t, off) ;; ret 0)%io v)
      as (v & Hrun).
    { unfold StemAnal.note_anal.
      rewrite (bind_ok (lift (StemAnal.segment_offset y fs t)) _ w _ Hso).
      cbn [lift snd].
      rewrite (bind_ok _ _ _ tt) by reflexivity.
      rewrite (bind_ok _ _ _ tt) by apply for_each_writerow_ok.
      eexists. reflexivity. }
    rewrite Hrun.
    destruct (onoff_row_last (StemAnal.onoff_csv outname) (t, off) v)
      as [Hres [rows Hrows]].
    split; [exact Hres|]. exists rows, off. split; [exact Hrows|].
    eapply stem_segment_offset_after_start; eassumption.
  - intros a w Hsr Hrms.
    destruct (stem_main_unfold a) as (y_chopt & Hmain). rewrite Hmain.
    change (bind (open_write ?p) ?k ?v) with (k tt (open_write p v).2). cbv beta.
    apply file_post_bind; [apply file_post_open_write; constructor|].
    intros _. apply file_inv_bind; [|intros; apply file_inv_ret].
    unfold StemAnal.main_loop. apply file_inv_for_each. intros item _.
    apply main_step_onoff_ordered; assumption.
Qed.

End OnsetOffsetOrder.

(** The scenario track through [mono_anal.main] and the decaying note
    through [stem_anal.main]: both write pairs in order. *)
Lemma offset_not_before_onset_witness :
  ((@MonoAnal.main (replay scenario)
      (MonoAnal.mkArgs "note.wav" 0 "pt.csv" "onoff.csv") world0).1 = Ok 0 /\
   exists rows on_time off_time,
     content (@MonoAnal.main (replay scenario)
                (MonoAnal.mkArgs "note.wav" 0 "pt.csv" "onoff.csv") world0).2
             "onoff.csv" = rows ++ [(on_time, off_time)] /\
     (on_time <= off_time)%Q) /\
  Forall (fun r : row => (r.1 <= r.2)%Q)
         (content (@StemAnal.main (replay decaying_note)
                     (StemAnal.mkArgs "stem.wav" "out" "onsets.jams") world0).2
                  (StemAnal.onoff_csv "out")).
Proof.
  split.
  - apply (proj1 (@offset_not_before_onset (replay scenario))
             (MonoAnal.mkArgs "note.wav" 0 "pt.csv" "onoff.csv") world0
             [440; 440; 440]%Q 2%nat).
    + reflexivity.
    + discriminate.
    + discriminate.
  - apply (proj2 (proj2 (proj2 (@offset_not_before_onset (replay decaying_note))))
             (StemAnal.mkArgs "stem.wav" "out" "onsets.jams") world0).
    + reflexivity.
    + intros seg. discriminate.
Defined.

(** ** More on pitch-track trimming *)

Section TrimmingMore.
Import MonoAnal.

(** What a successful trimming has found: the two loop results. *)
Lemma trim_pitch_track_end_inv (pt tr : list Q) (st : nat) :
  trim_pitch_track_end pt = Ok (tr, st) ->
  exists e, tr = take (e - st) (drop st pt) /\ (st <= e < length pt)%nat /\
    (forall j v, (j < st)%nat -> pt !! j = Some v -> (v < 0)%Q) /\
    (S st = length pt \/ exists v, pt !! st = Some v /\ (0 <= v)%Q) /\
    (forall j v, (st <= j < e)%nat -> pt !! j = Some v -> (0 < v)%Q) /\
    (S e = length pt \/ exists v, pt !! e = Some v /\ (v <= 0)%Q).
Proof.
  intros Htrim.
  assert (pt <> []) as Hne by (intros ->; discriminate Htrim).
  assert (0 < length pt)%nat as Hlen by (destruct pt; [congruence|simpl; lia]).
  destruct (trim_pitch_track_end_total pt Hne) as (st' & e & Heq & Hr & Hst & He).
  rewrite Heq in Htrim. inversion Htrim; subst. clear Htrim.
  destruct (skip_negative_spec pt (S (length pt)) 0) as (s & Hs & _ & Hbefore & Hat);
    [lia|lia|].
  rewrite Hst in Hs. inversion Hs; subst s.
  destruct (skip_positive_spec pt (S (length pt)) st) as (e' & He' & _ & Hrun & Hend);
    [lia|lia|].
  rewrite He in He'. inversion He'; subst e'.
  exists e. repeat split; try lia; try assumption.
  intros j v Hj Hv. apply (Hbefore j); [lia|exact Hv].
Qed.

(** X1: [trim_pitch_track_end] raises [IndexError] on the empty track and
    on no other; on every other track both loops end and it returns. *)
Theorem trim_raises_only_on_empty (pt : list Q) :
  (trim_pitch_track_end pt = Raise IndexError <-> pt = []) /\
  (pt <> [] <-> exists tr st, trim_pitch_track_end pt = Ok (tr, st)).
Proof.
  split; split.
  - intros Hraise. destruct pt as [|v pt]; [reflexivity|].
    destruct (trim_pitch_track_end_total (v :: pt)) as (st & e & Heq & _);
      [discriminate|].
    rewrite Heq in Hraise. discriminate Hraise.
  - intros ->. reflexivity.
  - intros Hne. destruct (trim_pitch_track_end_total pt Hne) as (st & e & Heq & _).
    eauto.
  - intros (tr & st & Heq) ->. discriminate Heq.
Qed.

(** X2: what trimming returns is a run of consecutive frames of the track,
    starting at the returned index; every returned frame is strictly
    positive, every frame before the run is negative, and the last frame of
    the track is never part of the run. *)
Theorem trim_returns_voiced_run (pt tr : list Q) (st : nat) :
  trim_pitch_track_end pt = Ok (tr, st) ->
  Forall (fun v => (0 < v)%Q) tr /\
  (forall j, (j < length tr)%nat -> tr !! j = pt !! (st + j)%nat) /\
  (forall j v, (j < st)%nat -> pt !! j = Some v -> (v < 0)%Q) /\
  (st + length tr < length pt)%nat.
Proof.
  intros Htrim.
  destruct (trim_pitch_track_end_inv pt tr st Htrim)
    as (e & -> & Hr & Hbefore & _ & Hrun & _).
  assert (length (take (e - st) (drop st pt)) = (e - st)%nat) as Hlen.
  { rewrite length_take, length_drop. lia. }
  split; [|split; [|split]].
  - apply Forall_lookup. intros j v Hj.
    pose proof (lookup_lt_Some _ _ _ Hj) as Hlt. rewrite Hlen in Hlt.
    rewrite lookup_take_lt, lookup_drop in Hj by lia.
    apply (Hrun (st + j)%nat); [lia|exact Hj].
  - intros j Hj. rewrite Hlen in Hj.
    rewrite lookup_take_lt, lookup_drop by lia. reflexivity.
  - exact Hbefore.
  - rewrite Hlen. lia.
Qed.

Lemma trim_returns_voiced_run_witness :
  Forall (fun v => (0 < v)%Q) [440; 440; 440]%Q /\
  (forall j, (j < length [440; 440; 440]%Q)%nat ->
     [440; 440; 440]%Q !! j = scenario_track !! (2 + j)%nat) /\
  (forall j v, (j < 2)%nat -> scenario_track !! j = Some v -> (v < 0)%Q) /\
  (2 + length [440; 440; 440]%Q < length scenario_track)%nat.
Proof.
  apply (trim_returns_voiced_run scenario_track [440; 440; 440]%Q 2). reflexivity.
Defined.

(** X3: the run is as long as it can be: it stops on a frame of the track
    that is not positive, or on the last frame of the track. *)
Theorem trim_run_is_maximal (pt tr : list Q) (st : nat) :
  trim_pitch_track_end pt = Ok (tr, st) ->
  S (st + length tr) = length pt \/
  exists v, pt !! (st + length tr)%nat = Some v /\ (v <= 0)%Q.
Proof.
  intros Htrim.
  destruct (trim_pitch_track_end_inv pt tr st Htrim)
    as (e & -> & Hr & _ & _ & _ & Hend).
  rewrite length_take, length_drop.
  replace (st + (e - st) `min` (length pt - st))%nat with e by lia.
  exact Hend.
Qed.

Lemma trim_run_is_maximal_witness :
  S (2 + length [440; 440; 440]%Q) = length scenario_track \/
  exists v, scenario_track !! (2 + length [440; 440; 440]%Q)%nat = Some v /\
            (v <= 0)%Q.
Proof.
  apply (trim_run_is_maximal scenario_track [440; 440; 440]%Q 2). reflexivity.
Defined.

(** X4: a track whose frames are all positive loses its last frame: the
    result is the track without its last frame, from index 0; a single
    positive frame gives the empty result. *)
Theorem trim_all_voiced_drops_last (pt : list Q) :
  pt <> [] -> Forall (fun v => (0 < v)%Q) pt ->
  trim_pitch_track_end pt = Ok (take (length pt - 1) pt, 0%nat).
Proof.
  intros Hne Hall.
  destruct (trim_pitch_track_end_total pt Hne) as (st & e & Heq & Hr & _).
  destruct (trim_pitch_track_end_inv pt _ st Heq)
    as (e' & Htr & Hr' & Hbefore & _ & _ & Hend).
  assert (forall j v, pt !! j = Some v -> (0 < v)%Q) as Hpos.
  { intros j v Hj. eapply (proj1 (Forall_lookup _ pt) Hall); eassumption. }
  assert (st = 0)%nat as ->.
  { destruct st as [|st]; [reflexivity|].
    destruct (lookup_lt_is_Some_2 pt 0) as [v Hv]; [lia|].
    pose proof (Hbefore 0%nat v ltac:(lia) Hv) as Hneg.
    pose proof (Hpos 0%nat v Hv) as Hp.
    exfalso. apply (Qlt_irrefl 0). eapply Qlt_trans; eassumption. }
  assert (S e' = length pt) as He'.
  { destruct Hend as [Hlast|(v & Hv & Hle)]; [exact Hlast|].
    pose proof (Hpos e' v Hv) as Hp.
    exfalso. apply (Qlt_irrefl 0). eapply Qlt_le_trans; eassumption. }
  rewrite Heq, Htr. rewrite drop_0, Nat.sub_0_r.
  replace (length pt - 1)%nat with e' by lia. reflexivity.
Qed.

Lemma trim_all_voiced_drops_last_witness :
  trim_pitch_track_end [440; 441; 442]%Q = Ok ([440; 441]%Q, 0%nat).
Proof.
  apply (trim_all_voiced_drops_last [440; 441; 442]%Q); [discriminate|].
  repeat constructor.
Defined.

End TrimmingMore.

(** ** Rows written by the single-note scripts *)

Section SingleNoteRows.

Lemma for_each_writerow_content (p q : string) (rows : list row) (w : world) :
  content (for_each rows (fun r => writerow p r) w).2 q =
  if decide (p = q) then content w q ++ rows else content w q.
Proof.
  revert w. induction rows as [|r rows IH]; intros w.
  - simpl. destruct (decide (p = q)); [rewrite app_nil_r|]; reflexivity.
  - cbn [for_each]. rewrite (bind_ok _ _ _ tt) by reflexivity.
    rewrite IH, content_writerow.
    destruct (decide (p = q)); [rewrite <- app_assoc|]; reflexivity.
Qed.

Lemma onoff_tail_content (p q : string) (r : row) (v : world) :
  content ((open_append p ;; writerow p r ;; ret 0)%io v).2 q =
  if decide (p = q) then content v q ++ [r] else content v q.
Proof.
  unfold bind, open_append, writerow, ret. cbn [fst snd].
  destruct (decide (p = q)) as [->|Hne].
  - rewrite content_mk, lookup_insert_eq. cbn [from_option id].
    rewrite content_mk, lookup_insert_eq. reflexivity.
  - rewrite content_mk, lookup_insert_ne by done. cbn [files].
    rewrite lookup_insert_ne by done. reflexivity.
Qed.

Lemma py_zip_length {A B} (xs : list A) (ys : list B) :
  length (py_zip xs ys) = Nat.min (length xs) (length ys).
Proof.
  revert ys. induction xs as [|x xs IH]; intros [|y ys]; simpl; try reflexivity.
  rewrite IH. reflexivity.
Qed.

Lemma py_zip_lookup {A B} (xs : list A) (ys : list B) (j : nat) (x : A) (y : B) :
  xs !! j = Some x -> ys !! j = Some y -> py_zip xs ys !! j = Some (x, y).
Proof.
  revert ys j. induction xs as [|a xs IH]; intros [|b ys] [|j] Hx Hy;
    simpl in *; try discriminate.
  - congruence.
  - apply IH; assumption.
Qed.

(** [l[st:-1]] for a start index that is not negative. *)
Lemma py_slice_to_last {A} (l : list A) (st : nat) :
  py_slice l (Z.of_nat st) (-1) = take (length l - 1 - st) (drop st l).
Proof.
  unfold py_slice, slice_bound.
  destruct (Z.ltb_spec (Z.of_nat st) 0) as [Hneg|_]; [lia|].
  change (-1 <? 0) with true. cbv iota.
  assert (Z.to_nat (Z.of_nat (length l) `min` (0 `max` Z.of_nat st))
          = Nat.min (length l) st) as -> by lia.
  assert (Z.to_nat (Z.of_nat (length l) `min` (0 `max` (-1 + Z.of_nat (length l))))
          = (length l - 1)%nat) as -> by lia.
  destruct (Nat.le_gt_cases (length l) st) as [Hbig|Hsmall].
  - rewrite (drop_ge l (Nat.min (length l) st)), (drop_ge l st) by lia.
    rewrite !take_nil. reflexivity.
  - rewrite Nat.min_r by lia. reflexivity.
Qed.

Lemma arange_lookup_lt (n j : nat) :
  (j < n)%nat -> arange n !! j = Some (inject_Z (Z.of_nat j)).
Proof.
  intros Hj. unfold arange. rewrite list_lookup_fmap, lookup_seq_lt by lia.
  reflexivity.
Qed.

Context `{Collaborators}.

(** X5: with two different output paths and a trimmed track [tr] that is
    not empty, [mono_anal.main] appends [len(tr) - 1 - st] rows to the
    pitch-track file, none when [st >= len(tr) - 1]; row [j] holds the time
    [seg_start_time + j * t_step] and the frame [st + j] of the trimmed
    track.  The onset/offset file gets exactly one more row. *)
Theorem mono_main_rows (a : MonoAnal.args) (w : world) (tr : list Q) (st : nat) :
  MonoAnal.pt_path a <> MonoAnal.onoff_path a ->
  MonoAnal.trim_pitch_track_end
    (MonoAnal.mono_anal (load (MonoAnal.wav_path a)).1
                        (load (MonoAnal.wav_path a)).2).2 = Ok (tr, st) ->
  tr <> [] ->
  let t_step := (MonoAnal.mono_anal (load (MonoAnal.wav_path a)).1
                                    (load (MonoAnal.wav_path a)).2).1 in
  exists rows r,
    content (MonoAnal.main a w).2 (MonoAnal.pt_path a)
      = content w (MonoAnal.pt_path a) ++ rows /\
    length rows = (length tr - 1 - st)%nat /\
    (forall j v, tr !! (st + j)%nat = Some v -> (st + j < length tr - 1)%nat ->
       rows !! j =
       Some ((inject_Z (Z.of_nat j) * t_step + MonoAnal.seg_start_time a)%Q, v)) /\
    content (MonoAnal.main a w).2 (MonoAnal.onoff_path a)
      = content w (MonoAnal.onoff_path a) ++ [r].
Proof.
  intros Hpaths Htrim Hne t_step. subst t_step.
  destruct (load (MonoAnal.wav_path a)) as [y fs] eqn:Hload.
  simpl in Htrim |- *.
  destruct (MonoAnal.mono_anal y fs) as [t_step pitch_track] eqn:Hanal.
  simpl in Htrim |- *.
  set (p_time := map (fun k => k * t_step + MonoAnal.seg_start_time a)%Q
                     (arange (length tr))).
  set (rows := py_zip p_time (py_slice tr (Z.of_nat st) (-1))).
  set (r := (MonoAnal.first_time p_time, MonoAnal.last_time p_time)).
  assert (MonoAnal.main a w =
          (open_append (MonoAnal.onoff_path a) ;;
           writerow (MonoAnal.onoff_path a) r ;; ret 0)%io
            (for_each rows (fun tf => writerow (MonoAnal.pt_path a) tf)
               (open_append (MonoAnal.pt_path a) w).2).2) as Hmain.
  { unfold MonoAnal.main. rewrite Hload, Hanal.
    rewrite (bind_ok (lift (MonoAnal.trim_pitch_track_end pitch_track)) _ w _ Htrim).
    cbn [lift snd]. fold p_time.
    assert ((len p_time =? 0) = false) as ->.
    { unfold len, p_time. rewrite length_map, arange_length.
      destruct tr; [congruence|reflexivity]. }
    rewrite (bind_ok _ _ _ tt) by reflexivity.
    rewrite (bind_ok _ _ _ tt) by apply for_each_writerow_ok.
    reflexivity. }
  exists rows, r. rewrite Hmain, !onoff_tail_content, !for_each_writerow_content,
    !content_open_append.
  destruct (decide (MonoAnal.onoff_path a = MonoAnal.pt_path a)); [congruence|].
  destruct (decide (MonoAnal.onoff_path a = MonoAnal.onoff_path a)); [|congruence].
  destruct (decide (MonoAnal.pt_path a = MonoAnal.pt_path a)); [|congruence].
  destruct (decide (MonoAnal.pt_path a = MonoAnal.onoff_path a)); [congruence|].
  split; [reflexivity|]. split; [|split; [|reflexivity]].
  - unfold rows, row. rewrite py_zip_length, py_slice_to_last.
    unfold p_time. rewrite length_map, arange_length, length_take, length_drop. lia.
  - intros j v Hv Hj. unfold rows. apply py_zip_lookup.
    + unfold p_time. rewrite list_lookup_fmap, arange_lookup_lt by lia. reflexivity.
    + rewrite py_slice_to_last, lookup_take_lt, lookup_drop by lia. exact Hv.
Qed.

End SingleNoteRows.

(** A trimmed track of five frames starting at index 1 of a seven-frame
    track. *)
Lemma mono_main_rows_witness :
  exists rows r,
    content (@MonoAnal.main (replay (mkRecording [] 44100 0.01
                                      [-1; 440; 441; 442; 443; 444; -1]%Q
                                      [] [] [] [] []))
               (MonoAnal.mkArgs "note.wav" 0 "pt.csv" "onoff.csv") world0).2 "pt.csv"
      = content world0 "pt.csv" ++ rows /\
    length rows = (length [440; 441; 442; 443; 444]%Q - 1 - 1)%nat /\
    (forall j v, [440; 441; 442; 443; 444]%Q !! (1 + j)%nat = Some v ->
       (1 + j < length [440; 441; 442; 443; 444]%Q - 1)%nat ->
       rows !! j = Some ((inject_Z (Z.of_nat j) * 0.01 + 0)%Q, v)) /\
    content (@MonoAnal.main (replay (mkRecording [] 44100 0.01
                                      [-1; 440; 441; 442; 443; 444; -1]%Q
                                      [] [] [] [] []))
               (MonoAnal.mkArgs "note.wav" 0 "pt.csv" "onoff.csv") world0).2 "onoff.csv"
      = content world0 "onoff.csv" ++ [r].
Proof.
  apply (@mono_main_rows
           (replay (mkRecording [] 44100 0.01 [-1; 440; 441; 442; 443; 444; -1]%Q
                                [] [] [] [] []))
           (MonoAnal.mkArgs "note.wav" 0 "pt.csv" "onoff.csv") world0
           [440; 441; 442; 443; 444]%Q 1%nat).
  - discriminate.
  - reflexivity.
  - discriminate.
Defined.

(** ** The offset frame of [note_anal.py] *)

Section NoteOffsetFrame.

(** The loop of [note_anal.segment_offset] stops on the first frame, from
    its starting frame on, whose value is not under 8.5, and on the frame
    after the last one when there is none. *)
Lemma advance_offset_first_crossing (lop : list Q) (fuel i : nat) :
  (length lop - i < fuel)%nat ->
  exists f, NoteAnal.advance_offset lop fuel i = Ok f /\ (i <= f)%nat /\
    (f <= Nat.max i (length lop))%nat /\
    (forall j v, (i <= j < f)%nat -> lop !! j = Some v -> (v < 8.5)%Q) /\
    (forall v, lop !! f = Some v -> (8.5 <= v)%Q).
Proof.
  revert i. induction fuel as [|fuel IH]; intros i Hfuel; [lia|].
  cbn [NoteAnal.advance_offset]. unfold len.
  destruct (Z.ltb_spec (Z.of_nat i) (Z.of_nat (length lop))) as [Hin|Hout].
  - destruct (lookup_lt_is_Some_2 lop i) as [v Hv]; [lia|].
    unfold py_index. rewrite Hv. cbn [rbind].
    destruct (Qltb v 8.5) eqn:Hlow.
    + destruct (IH (S i)) as (f & Hf & Hle & Hmax & Hbefore & Hat); [lia|].
      exists f. repeat split; try assumption; try lia.
      intros j u Hj Hu. destruct (decide (j = i)) as [->|Hne].
      * rewrite Hv in Hu. inversion Hu; subst. apply Qltb_lt. exact Hlow.
      * apply (Hbefore j); [lia|exact Hu].
    + exists i. repeat split; try lia.
      intros u Hu. rewrite Hv in Hu. inversion Hu; subst.
      apply Qltb_ge. exact Hlow.
  - exists i. repeat split; try lia.
    intros u Hu. apply lookup_lt_Some in Hu. lia.
Qed.

(** [l[0:n]] keeps the first [n] elements, all of them when there are fewer. *)
Lemma py_slice_prefix {A} (l : list A) (n : nat) :
  py_slice l 0 (Z.of_nat n) = take n l.
Proof.
  unfold py_slice. rewrite (slice_bound_in_range _ 0) by lia.
  change (Z.to_nat 0) with 0%nat. rewrite drop_0, Nat.sub_0_r.
  destruct (Nat.le_gt_cases (length l) n) as [Hle|Hgt].
  - rewrite slice_bound_beyond by lia. rewrite !take_ge by lia. reflexivity.
  - rewrite slice_bound_in_range by lia. rewrite Nat2Z.id. reflexivity.
Qed.

Context `{Collaborators}.

Lemma log_offset_prob_length (seg : list Q) (sr : Z) :
  length (NoteAnal.log_offset_prob_of seg sr) =
  Nat.min (length (NoteAnal.offset_anal seg sr).2) (length (rmse seg)).
Proof.
  unfold NoteAnal.log_offset_prob_of.
  destruct (NoteAnal.offset_anal seg sr) as [t_step vp]. cbn [snd].
  rewrite length_map, length_zip_with, length_map. unfold len.
  rewrite <- Nat2Z.inj_min.
  change 0 with (Z.of_nat 0).
  rewrite !py_slice_length by lia. lia.
Qed.

(** X6: [note_anal.segment_offset] always finds an offset frame [f]: the
    first frame from frame 10 on whose value [-log(rms * vp)] is 8.5 or
    more, and the number of frames when there is none (or 10, when there
    are fewer than 10 frames); every frame from 10 up to [f] has a value
    under 8.5. *)
Theorem note_offset_frame_first_crossing (seg : list Q) (sr : Z) :
  let lop := NoteAnal.log_offset_prob_of seg sr in
  exists f, NoteAnal.offset_frame_of seg sr = Ok f /\
    (10 <= f <= Nat.max 10 (length lop))%nat /\
    (forall j v, (10 <= j < f)%nat -> lop !! j = Some v -> (v < 8.5)%Q) /\
    (forall v, lop !! f = Some v -> (8.5 <= v)%Q).
Proof.
  intros lop. unfold NoteAnal.offset_frame_of. fold lop.
  destruct (advance_offset_first_crossing lop (S (length lop)) 10)
    as (f & Hf & Hle & Hmax & Hbefore & Hat); [lia|].
  exists f. repeat split; assumption.
Qed.

(** X7: when the voiced-probability track or the energy has at most ten
    frames, the offset of [note_anal.segment_offset] is frame 10, past the
    end of both, whatever the signal holds: the returned time is
    [2560 / sr] after the segment start and the pitch track comes back
    cut at ten frames. *)
Theorem note_offset_of_short_segment (seg : list Q) (sr : Z) (start : Q) :
  (Nat.min (length (NoteAnal.offset_anal seg sr).2) (length (rmse seg)) <= 10)%nat ->
  NoteAnal.segment_offset seg sr start =
  Ok ((frames_to_time 10 sr + start)%Q,
      take 10 (NoteAnal.pt_anal seg sr).2, (NoteAnal.pt_anal seg sr).1).
Proof.
  intros Hshort. rewrite <- log_offset_prob_length in Hshort.
  unfold NoteAnal.segment_offset, NoteAnal.offset_frame_of.
  destruct (NoteAnal.pt_anal seg sr) as [t_step pt]. cbn [fst snd].
  destruct (advance_offset_first_crossing (NoteAnal.log_offset_prob_of seg sr)
              (S (length (NoteAnal.log_offset_prob_of seg sr))) 10)
    as (f & Hf & Hle & Hmax & _); [lia|].
  assert (f = 10%nat) as -> by lia.
  rewrite Hf. cbn [rbind]. rewrite py_slice_prefix. reflexivity.
Qed.

End NoteOffsetFrame.

Lemma note_offset_of_short_segment_witness :
  @NoteAnal.segment_offset (replay silence) (rec_audio silence) 44100 0 =
  Ok ((frames_to_time 10 44100 + 0)%Q,
      take 10 (@NoteAnal.pt_anal (replay silence) (rec_audio silence) 44100).2,
      (@NoteAnal.pt_anal (replay silence) (rec_audio silence) 44100).1).
Proof.
  apply (@note_offset_of_short_segment (replay silence) (rec_audio silence) 44100 0).
  vm_compute. lia.
Defined.

(** ** The likelihood curve and the silence frame of [stem_anal.py] *)

Section LikelihoodCurve.
Import StemAnal.

Lemma np_diff_length (a : list Q) : length (np_diff a) = (length a - 1)%nat.
Proof.
  induction a as [|x [|y a] IH]; try reflexivity.
  cbn [np_diff length] in *. rewrite IH. lia.
Qed.

Lemma broadcast_same_length (f : Q -> Q -> Q) (xs ys : list Q) :
  length xs = length ys -> broadcast f xs ys = Ok (zip_with f xs ys).
Proof.
  intros Hlen. unfold broadcast. rewrite (proj2 (Nat.eqb_eq _ _) Hlen). reflexivity.
Qed.

(** Two columns of different lengths, both of two rows or more, do not
    broadcast. *)
Lemma broadcast_mismatch (f : Q -> Q -> Q) (xs ys : list Q) :
  length xs <> length ys -> (1 < length xs)%nat -> (1 < length ys)%nat ->
  broadcast f xs ys = Raise ValueError.
Proof.
  intros Hne Hxs Hys. unfold broadcast.
  rewrite (proj2 (Nat.eqb_neq _ _) Hne).
  destruct xs as [|x [|x' xs]]; simpl in Hxs; try lia.
  destruct ys as [|y [|y' ys]]; simpl in Hys; try lia. reflexivity.
Qed.

Lemma py_slice_but_last {A} (l : list A) :
  py_slice l 0 (-1) = take (length l - 1) l.
Proof.
  pose proof (py_slice_to_last l 0) as Hs.
  change (Z.of_nat 0) with 0 in Hs. rewrite drop_0, Nat.sub_0_r in Hs. exact Hs.
Qed.

Lemma np_maximum_floor (v : Q) : (0 <= np_maximum v 0)%Q.
Proof.
  unfold np_maximum. destruct (Qltb v 0) eqn:Hv; [apply Qle_refl|].
  apply Qltb_ge. exact Hv.
Qed.

Context `{Collaborators}.

Lemma energy_length (seg : list Q) : length (energy seg) = length (rmse seg).
Proof. unfold energy. apply length_map. Qed.

(** X8: when the offset strength has at least as many frames as the
    energy has frame-to-frame differences, [to_peak_pick] is computed
    without an error, has one value per difference, and no value in it is
    negative. *)
Theorem likelihood_floored (seg : list Q) (sr : Z) :
  (length (rmse seg) - 1 <= length (offset_strength seg sr))%nat ->
  exists to_peak_pick,
    likelihood seg sr = Ok to_peak_pick /\
    length to_peak_pick = (length (rmse seg) - 1)%nat /\
    Forall (fun v => (0 <= v)%Q) to_peak_pick.
Proof.
  intros Hlen. unfold likelihood.
  set (rms := energy seg).
  set (rms_diff := map Qopp (np_diff (map np_log rms))).
  assert (length rms_diff = (length (rmse seg) - 1)%nat) as Hdiff.
  { unfold rms_diff, rms. rewrite length_map, np_diff_length, length_map.
    rewrite energy_length. reflexivity. }
  rewrite Nat.min_l by lia. rewrite (take_ge rms_diff) by lia.
  rewrite broadcast_same_length by (rewrite length_take; lia).
  cbn [rbind]. rewrite py_slice_but_last.
  rewrite broadcast_same_length.
  2:{ rewrite length_zip_with, length_take, length_take.
      unfold rms. rewrite energy_length. lia. }
  cbn [rbind]. eexists. split; [reflexivity|]. split.
  - rewrite length_map, !length_zip_with, !length_take.
    unfold rms. rewrite energy_length. lia.
  - apply Forall_fmap. apply Forall_forall. intros v _. apply np_maximum_floor.
Qed.

Lemma likelihood_mismatch (seg : list Q) (sr : Z) :
  (1 < length (offset_strength seg sr) < length (rmse seg) - 1)%nat ->
  likelihood seg sr = Raise ValueError.
Proof.
  intros Hlen. unfold likelihood.
  set (rms := energy seg).
  set (rms_diff := map Qopp (np_diff (map np_log rms))).
  assert (length rms_diff = (length (rmse seg) - 1)%nat) as Hdiff.
  { unfold rms_diff, rms. rewrite length_map, np_diff_length, length_map.
    rewrite energy_length. reflexivity. }
  rewrite Nat.min_r by lia. rewrite (take_ge (offset_strength seg sr)) by lia.
  rewrite broadcast_same_length by (rewrite length_take; lia).
  cbn [rbind]. rewrite py_slice_but_last.
  rewrite broadcast_mismatch; [reflexivity| | |].
  - rewrite length_zip_with, !length_take. unfold rms. rewrite energy_length. lia.
  - rewrite length_zip_with, length_take. lia.
  - rewrite length_take. unfold rms. rewrite energy_length. lia.
Qed.

(** X9: when, for the analyzed samples, the offset strength has two frames
    or more but fewer than the energy has frame-to-frame differences, the
    division by [rms[:-1]] meets two columns of different lengths and
    [segment_offset] raises [ValueError]: cutting both signals to the
    shorter length does not make this case pass. *)
Theorem segment_offset_shape_error (seg : list Q) (sr : Z) (start : Q) :
  let analyzed := hpss (truncate_seg seg sr) in
  (1 < length (offset_strength analyzed sr) < length (rmse analyzed) - 1)%nat ->
  segment_offset seg sr start = Raise ValueError.
Proof.
  intros analyzed Hlen. unfold segment_offset, detect. fold analyzed.
  destruct (pt_anal analyzed sr) as [t_step pt].
  rewrite (likelihood_mismatch analyzed sr Hlen). reflexivity.
Qed.

End LikelihoodCurve.

Lemma likelihood_floored_witness :
  exists to_peak_pick,
    @StemAnal.likelihood (replay decaying_note) (rec_audio decaying_note) 44100
      = Ok to_peak_pick /\
    length to_peak_pick
      = (length (@rmse (replay decaying_note) (rec_audio decaying_note)) - 1)%nat /\
    Forall (fun v => (0 <= v)%Q) to_peak_pick.
Proof.
  apply (@likelihood_floored (replay decaying_note) (rec_audio decaying_note) 44100).
  vm_compute. lia.
Defined.

Lemma segment_offset_shape_error_witness :
  @StemAnal.segment_offset (replay mismatched) (rec_audio mismatched) 44100 0
  = Raise ValueError.
Proof.
  apply (@segment_offset_shape_error (replay mismatched) (rec_audio mismatched)
           44100 0%Q).
  vm_compute. lia.
Defined.

(** ** The fallback frame and the segments as a partition *)

Section FallbackAndPartition.
Import StemAnal.

(** X10: for an energy sequence of at least one frame, the fallback frame
    is the index of one of its frames: it is never negative and never past
    the last frame; it is the last frame whenever it lies inside the
    five-frame grace period. *)
Theorem silence_frame_in_range (rms : list Q) :
  rms <> [] ->
  0 <= silence_frame rms < len rms /\
  (silence_frame rms < 5 -> silence_frame rms = len rms - 1).
Proof.
  intros Hne. unfold silence_frame, enumerate.
  assert (0 < len rms) as Hlen by (unfold len; destruct rms; [congruence|simpl; lia]).
  destruct (silence_scan_spec rms 0 (len rms - 1))
    as [(j & e & -> & Hj & He & _)|[-> _]].
  - apply lookup_lt_Some in He. unfold len. lia.
  - lia.
Qed.

Lemma silence_frame_in_range_witness :
  0 <= silence_frame [0.2; 0.1; 0]%Q < len [0.2; 0.1; 0]%Q /\
  (silence_frame [0.2; 0.1; 0]%Q < 5 ->
   silence_frame [0.2; 0.1; 0]%Q = len [0.2; 0.1; 0]%Q - 1).
Proof. apply (silence_frame_in_range [0.2; 0.1; 0]%Q). discriminate. Defined.

Lemma concat_slices {A} (y : list A) (ons : list Z) :
  onsets_in_order (length y) ons ->
  forall rest i segs,
    drop i ons = rest -> length segs = length rest ->
    (forall j on, rest !! j = Some on ->
       segs !! j = Some (py_slice y on (default (len y) (ons !! S (i + j))))) ->
    concat segs = match rest with
                  | [] => []
                  | a :: _ => drop (Z.to_nat a) y
                  end.
Proof.
  intros [Hrange Hsorted] rest.
  induction rest as [|a rest IH]; intros i segs Hdrop Hlen Hsegs.
  - destruct segs; [reflexivity|discriminate].
  - destruct segs as [|s segs]; [discriminate|].
    destruct (drop_cons_lookup _ _ _ _ Hdrop) as [Hi Hrest].
    pose proof (Hsegs 0%nat a eq_refl) as Hs. rewrite Nat.add_0_r in Hs.
    simpl in Hs. inversion Hs as [Hs0]. clear Hs.
    assert (concat segs = match rest with
                          | [] => []
                          | b :: _ => drop (Z.to_nat b) y
                          end) as Htail.
    { apply (IH (S i)); [exact Hrest|simpl in Hlen; lia|].
      intros j on Hj. specialize (Hsegs (S j) on Hj). simpl in Hsegs.
      rewrite Hsegs. replace (S i + j)%nat with (i + S j)%nat by lia. reflexivity. }
    cbn [concat]. rewrite Htail.
    destruct (Hrange i a Hi) as [Ha0 Han].
    destruct rest as [|b rest].
    + rewrite app_nil_r.
      rewrite (lookup_ge_None_2 ons (S i)).
      2:{ apply (f_equal length) in Hrest. rewrite length_drop in Hrest.
          simpl in Hrest. lia. }
      cbn [from_option id]. unfold py_slice, len.
      rewrite !slice_bound_in_range by lia. rewrite Nat2Z.id.
      apply take_ge. rewrite length_drop. lia.
    + destruct (drop_cons_lookup _ _ _ _ Hrest) as [Hb _]. rewrite Hb.
      cbn [from_option id].
      pose proof (Hsorted i a b Hi Hb) as Hab.
      destruct (Hrange (S i) b Hb) as [Hb0 Hbn].
      unfold py_slice. rewrite !slice_bound_in_range by lia.
      rewrite <- (take_drop (Z.to_nat b - Z.to_nat a) (drop (Z.to_nat a) y)) at 2.
      f_equal. rewrite drop_drop. f_equal. lia.
Qed.

(** X11: when the onsets are in order and inside the buffer, the segments
    of [chop_sig], put end to end, are the buffer from the first onset on:
    no sample after the first onset is lost and none is repeated. *)
Theorem chop_sig_partition {A} (y : list A) (on0 : Z) (ons : list Z) :
  onsets_in_order (length y) (on0 :: ons) ->
  exists y_chopt,
    chop_sig y (on0 :: ons) = Ok y_chopt /\
    concat y_chopt = drop (Z.to_nat on0) y.
Proof.
  intros Hord.
  destruct (chop_sig_loop_spec y (on0 :: ons) (on0 :: ons) 0 [] (drop_0 _))
    as (segs & Hloop & Hlen & Hsegs).
  exists segs. split; [exact Hloop|].
  apply (concat_slices y (on0 :: ons) Hord (on0 :: ons) 0%nat segs (drop_0 _) Hlen).
  exact Hsegs.
Qed.

Lemma chop_sig_partition_witness :
  exists y_chopt,
    chop_sig [10; 11; 12; 13; 14; 15] [1; 3; 3] = Ok y_chopt /\
    concat y_chopt = drop (Z.to_nat 1) [10; 11; 12; 13; 14; 15].
Proof.
  apply (chop_sig_partition [10; 11; 12; 13; 14; 15] 1 [3; 3]).
  split.
  - intros [|[|[|i]]] a Ha; simpl in Ha; inversion Ha; subst; simpl; lia.
  - intros [|[|[|i]]] a b Ha Hb; simpl in Ha, Hb; inversion Ha; inversion Hb;
      subst; lia.
Defined.

End FallbackAndPartition.

(** ** Files the scripts leave alone *)

Section OtherFiles.
Context `{Collaborators}.

Ltac other_file :=
  repeat file_inv_step;
  first [ apply file_inv_writerow_other; congruence
        | apply file_inv_open_write_other; congruence ].

(** X13: no script touches a file other than its two output files: what
    any other path holds is the same before and after [mono_anal.main],
    [note_anal.main], [stem_anal.note_anal] and [stem_anal.main], also when
    the run ends on an exception. *)
Theorem other_files_untouched :
  (forall (a : MonoAnal.args) w q,
     q <> MonoAnal.pt_path a -> q <> MonoAnal.onoff_path a ->
     content (MonoAnal.main a w).2 q = content w q) /\
  (forall (a : NoteAnal.args) w q,
     q <> NoteAnal.pt_path a -> q <> NoteAnal.onoff_path a ->
     content (NoteAnal.main a w).2 q = content w q) /\
  (forall y fs t outname w q,
     q <> StemAnal.pt_csv outname -> q <> StemAnal.onoff_csv outname ->
     content (StemAnal.note_anal y fs t outname w).2 q = content w q) /\
  (forall (a : StemAnal.args) w q,
     q <> StemAnal.pt_csv (StemAnal.outdir a) ->
     q <> StemAnal.onoff_csv (StemAnal.outdir a) ->
     content (StemAnal.main a w).2 q = content w q).
Proof.
  split; [|split; [|split]].
  - intros a w q Hpt Honoff.
    enough (file_inv (fun c => c = content w q) q (MonoAnal.main a)) as Hinv
      by exact (Hinv w eq_refl).
    unfold MonoAnal.main. destruct (load _) as [y fs].
    destruct (MonoAnal.mono_anal y fs) as [t_step pitch_track]. other_file.
  - intros a w q Hpt Honoff.
    enough (file_inv (fun c => c = content w q) q (NoteAnal.main a)) as Hinv
      by exact (Hinv w eq_refl).
    unfold NoteAnal.main. destruct (load _) as [y sr]. other_file.
  - intros y fs t outname w q Hpt Honoff.
    enough (file_inv (fun c => c = content w q) q (StemAnal.note_anal y fs t outname)) as Hinv
      by exact (Hinv w eq_refl).
    unfold StemAnal.note_anal. other_file.
  - intros a w q Hpt Honoff.
    enough (file_inv (fun c => c = content w q) q (StemAnal.main a)) as Hinv
      by exact (Hinv w eq_refl).
    unfold StemAnal.main, StemAnal.main_loop, StemAnal.main_step.
    destruct (load _) as [y sr]. other_file.
Qed.

End OtherFiles.

(** ** Rows written by [stem_anal.main] *)

Section StemRows.


Lemma enumerate_from_snd {A} (l : list A) (i : nat) :
  map snd (enumerate_from i l) = l.
Proof.
  revert i. induction l as [|x l IH]; intros i; simpl; [reflexivity|].
  rewrite IH. reflexivity.
Qed.


Context `{Collaborators}.




End StemRows.

(** ** Rows written by [stem_anal.note_anal] *)

Section StemNoteAnalRows.

Lemma pt_rows_lookup (t t_step : Q) (pt : list Q) (i : nat) :
  StemAnal.pt_rows t t_step pt !! i =
  (fun f => ((t + inject_Z (Z.of_nat i) * t_step)%Q, f)) <$> pt !! i.
Proof.
  unfold StemAnal.pt_rows, enumerate.
  rewrite list_lookup_fmap, enumerate_from_lookup.
  destruct (pt !! i); reflexivity.
Qed.

Lemma pt_rows_length (t t_step : Q) (pt : list Q) :
  length (StemAnal.pt_rows t t_step pt) = length pt.
Proof.
  unfold StemAnal.pt_rows, enumerate. rewrite length_map.
  rewrite <- (length_map snd), enumerate_from_snd. reflexivity.
Qed.

Context `{Collaborators}.

(** X14: when [segment_offset] returns, [stem_anal.note_anal] returns 0
    after appending one row per frame of the returned pitch track to
    [outname_pt.csv], unvoiced frames included, frame [i] at time
    [seg_start_time + i * t_step], and the row (segment start, offset) to
    [outname_onoff.csv]; when [segment_offset] raises, [note_anal] raises
    the same exception and the world is as it was: no file is created. *)
Theorem stem_note_anal_rows (y : list Q) (fs : Z) (t : Q) (outname : string)
    (w : world) :
  match StemAnal.segment_offset y fs t with
  | Ok (offset_time, pitch_track, t_step) =>
      (StemAnal.note_anal y fs t outname w).1 = Ok 0 /\
      (exists rows,
         content (StemAnal.note_anal y fs t outname w).2 (StemAnal.pt_csv outname)
           = content w (StemAnal.pt_csv outname) ++ rows /\
         length rows = length pitch_track /\
         forall i f, pitch_track !! i = Some f ->
           rows !! i = Some ((t + inject_Z (Z.of_nat i) * t_step)%Q, f)) /\
      content (StemAnal.note_anal y fs t outname w).2 (StemAnal.onoff_csv outname)
        = content w (StemAnal.onoff_csv outname) ++ [(t, offset_time)]
  | Raise e => StemAnal.note_anal y fs t outname w = (Raise e, w)
  | NoFuel => StemAnal.note_anal y fs t outname w = (NoFuel, w)
  end.
Proof.
  unfold StemAnal.note_anal.
  destruct (StemAnal.segment_offset y fs t) as [[[off pt] t_step]|e|];
    [|reflexivity|reflexivity].
  rewrite (bind_ok (lift (Ok (off, pt, t_step))) _ _ _ eq_refl). cbn [lift snd].
  rewrite (bind_ok _ _ _ tt) by reflexivity.
  rewrite (bind_ok _ _ _ tt) by apply for_each_writerow_ok.
  pose proof (pt_csv_onoff_csv outname) as Hne.
  split; [reflexivity|]. split.
  - exists (StemAnal.pt_rows t t_step pt).
    rewrite onoff_tail_content, for_each_writerow_content, content_open_append.
    destruct (decide (StemAnal.onoff_csv outname = StemAnal.pt_csv outname));
      [congruence|].
    destruct (decide (StemAnal.pt_csv outname = StemAnal.pt_csv outname));
      [|congruence].
    split; [reflexivity|]. split; [apply pt_rows_length|].
    intros i f Hf. rewrite pt_rows_lookup, Hf. reflexivity.
  - rewrite onoff_tail_content, for_each_writerow_content, content_open_append.
    destruct (decide (StemAnal.onoff_csv outname = StemAnal.onoff_csv outname));
      [|congruence].
    destruct (decide (StemAnal.pt_csv outname = StemAnal.onoff_csv outname));
      [congruence|reflexivity].
Qed.

End StemNoteAnalRows.

(** ** [offset_strength_multi] on a given spectrogram *)

Section OffsetStrengthProperties.
Import OffsetStrength.

(** [l[a:]] and [l[:-k]]. *)
Lemma py_slice_from {A} (l : list A) (a : Z) :
  0 <= a -> py_slice l a (len l) = drop (Z.to_nat a) l.
Proof.
  intros Ha. unfold py_slice, len.
  rewrite (slice_bound_in_range _ (Z.of_nat (length l))), Nat2Z.id by lia.
  destruct (Z.le_gt_cases a (Z.of_nat (length l))) as [Hin|Hout].
  - rewrite slice_bound_in_range by lia.
    apply take_ge. rewrite length_drop. lia.
  - rewrite slice_bound_beyond by lia.
    rewrite !drop_ge by lia. apply take_nil.
Qed.

Lemma py_slice_until_back {A} (l : list A) (k : Z) :
  1 <= k -> py_slice l 0 (- k) = take (length l - Z.to_nat k) l.
Proof.
  intros Hk. unfold py_slice.
  rewrite (slice_bound_in_range _ 0) by lia.
  change (Z.to_nat 0) with 0%nat. rewrite drop_0, Nat.sub_0_r.
  f_equal. unfold slice_bound.
  destruct (Z.ltb_spec (- k) 0); [|lia].
  destruct (Z.le_gt_cases k (Z.of_nat (length l))).
  - rewrite Z.max_r, Z.min_r by lia. lia.
  - rewrite Z.max_l, Z.min_r by lia. lia.
Qed.

Lemma lag_difference_eq (lag : Z) (row : list Q) :
  1 <= lag ->
  lag_difference lag row =
  zip_with Qminus (drop (Z.to_nat lag) row) (take (length row - Z.to_nat lag) row).
Proof.
  intros Hlag. unfold lag_difference.
  rewrite py_slice_from, py_slice_until_back by lia. reflexivity.
Qed.

Lemma lag_difference_length (lag : Z) (row : list Q) :
  1 <= lag ->
  length (lag_difference lag row) = (length row - Z.to_nat lag)%nat.
Proof.
  intros Hlag. rewrite lag_difference_eq by lia.
  rewrite length_zip_with, length_take, length_drop. lia.
Qed.

Lemma lag_difference_lookup (lag : Z) (row : list Q) (t : nat) (v : Q) :
  1 <= lag -> lag_difference lag row !! t = Some v ->
  exists a b, row !! t = Some a /\ row !! (t + Z.to_nat lag)%nat = Some b /\
    v = (b - a)%Q.
Proof.
  intros Hlag Hv. rewrite lag_difference_eq in Hv by lia.
  apply lookup_zip_with_Some in Hv as (b & a & -> & Hb & Ha).
  exists a, b. repeat split.
  - apply lookup_take_Some in Ha as [Ha _]. exact Ha.
  - rewrite lookup_drop in Hb.
    replace (t + Z.to_nat lag)%nat with (Z.to_nat lag + t)%nat by lia. exact Hb.
Qed.

Lemma repeat_lookup {A} (x : A) (n j : nat) :
  (j < n)%nat -> repeat x n !! j = Some x.
Proof.
  revert j. induction n as [|n IH]; intros [|j] Hj; simpl; try lia; [reflexivity|].
  apply IH. lia.
Qed.

Lemma Forall_zip_with_closed (P : Q -> Prop) (f : Q -> Q -> Q) (xs ys : list Q) :
  (forall a b, P a -> P b -> P (f a b)) ->
  Forall P xs -> Forall P ys -> Forall P (zip_with f xs ys).
Proof.
  intros Hf Hxs. revert ys. induction Hxs as [|x xs Hx Hxs IH]; intros ys Hys.
  - constructor.
  - destruct Hys as [|y ys Hy Hys]; simpl; constructor; auto.
Qed.

Lemma column_sums_closed (P : Q -> Prop) (rows : list (list Q)) :
  (forall a b, P a -> P b -> P (a + b)%Q) ->
  Forall (Forall P) rows -> Forall P (column_sums rows).
Proof.
  intros Hplus Hrows. unfold column_sums.
  destruct Hrows as [|row rest Hrow Hrest]; [constructor|].
  revert row Hrow. induction Hrest as [|r rest Hr Hrest IH]; intros row Hrow.
  - exact Hrow.
  - simpl. apply IH. apply Forall_zip_with_closed; assumption.
Qed.

Lemma column_sums_length (rows : list (list Q)) (n : nat) :
  rows <> [] -> Forall (fun row => length row = n) rows ->
  length (column_sums rows) = n.
Proof.
  intros Hne Hrows. unfold column_sums.
  destruct Hrows as [|row rest Hrow Hrest]; [congruence|]. clear Hne.
  revert row Hrow. induction Hrest as [|r rest Hr Hrest IH]; intros row Hrow.
  - exact Hrow.
  - simpl. apply IH. rewrite length_zip_with. lia.
Qed.

Lemma discard_increase_floor (v : Q) : (0 <= discard_increase v)%Q.
Proof.
  unfold discard_increase, StemAnal.np_maximum.
  destruct (Qltb 0 (-1 * v)) eqn:Hv; [|apply Qle_refl].
  apply Qlt_le_weak, Qltb_lt. exact Hv.
Qed.

(** X15: [offset_strength_multi] returns only when [lag >= 1],
    [max_size = 1] and [detrend] is off, and, with [center] on, when
    [hop_length] is not zero: every other setting ends in an exception,
    [max_size > 1] and [detrend] because the module never imports
    [scipy]. *)
Theorem offset_strength_multi_supported (S : list (list Q)) (lag max_size : Z)
    (detrend center : bool) (n_fft hop_length : Z) (env : list (list Q)) :
  offset_strength_multi S lag max_size detrend center n_fft hop_length = Returns env ->
  1 <= lag /\ max_size = 1 /\ detrend = false /\
  (center = true -> hop_length <> 0).
Proof.
  unfold offset_strength_multi. intros Hret.
  destruct (Z.ltb_spec lag 1); [discriminate|].
  destruct (Z.ltb_spec max_size 1); [discriminate|].
  destruct (Z.eqb_spec max_size 1); [|discriminate]. cbn [negb] in Hret.
  destruct center; cbn [andb] in Hret.
  - destruct (Z.eqb_spec (2 * hop_length) 0); [discriminate|].
    destruct (_ <? 0); [discriminate|].
    destruct detrend; [discriminate|]. repeat split; try assumption. lia.
  - destruct (_ <? 0); [discriminate|].
    destruct detrend; [discriminate|]. repeat split; try assumption. discriminate.
Qed.

Lemma offset_strength_multi_supported_witness :
  1 <= 1 /\ 1 = 1 /\ false = false /\ (true = true -> 256 <> 0).
Proof.
  apply (offset_strength_multi_supported decaying_spectrogram 1 1 false true 2048 256
           [[0; 0; 0; 0; 0; 0 # 2; 10 # 2; 10 # 2]%Q]).
  vm_compute. reflexivity.
Defined.

(** The envelope before padding: one value per frame but the last [lag],
    none of them negative. *)
Lemma mean_envelope (S : list (list Q)) (lag : Z) (m : nat) :
  1 <= lag -> S <> [] -> Forall (fun row => length row = m) S ->
  let env := mean_over_rows
               (map (fun row => map discard_increase (lag_difference lag row)) S) in
  length env = (m - Z.to_nat lag)%nat /\ Forall (fun v => (0 <= v)%Q) env.
Proof.
  intros Hlag Hne Hrect env. subst env. unfold mean_over_rows. split.
  - rewrite length_map. apply column_sums_length.
    + destruct S; [congruence|discriminate].
    + apply Forall_fmap. eapply Forall_impl; [exact Hrect|].
      intros row Hrow. simpl. rewrite length_map, lag_difference_length by lia.
      rewrite Hrow. reflexivity.
  - apply Forall_fmap.
    eapply Forall_impl.
    + apply (column_sums_closed (fun v => (0 <= v)%Q)).
      * intros a b Ha Hb. change 0%Q with (0 + 0)%Q.
        apply Qplus_le_compat; assumption.
      * apply Forall_fmap, Forall_forall. intros row _. simpl.
        apply Forall_fmap, Forall_forall. intros v _. apply discard_increase_floor.
    + intros total Htotal. simpl. unfold Qdiv.
      apply Qmult_le_0_compat; [exact Htotal|].
      apply Qinv_le_0_compat. change 0%Q with (inject_Z 0).
      rewrite <- Zle_Qle. unfold len. lia.
Qed.

(** With the settings the code supports and [center] on, the result is the
    padded envelope cut at the number of frames. *)
Lemma offset_strength_multi_eq (S : list (list Q)) (lag n_fft hop_length : Z)
    (m : nat) :
  1 <= lag -> 0 <= n_fft -> 0 < hop_length ->
  S <> [] -> Forall (fun row => length row = m) S ->
  offset_strength_multi S lag 1 false true n_fft hop_length =
  Returns [take m (repeat 0%Q (Z.to_nat (lag + n_fft / (2 * hop_length))) ++
                   mean_over_rows
                     (map (fun row => map discard_increase (lag_difference lag row))
                          S))].
Proof.
  intros Hlag Hfft Hhop Hne Hrect.
  assert (0 <= n_fft / (2 * hop_length)) as Hshift by (apply Z.div_pos; lia).
  assert (columns S = Z.of_nat m) as Hcols.
  { unfold columns, len. destruct S as [|row S]; [congruence|].
    inversion Hrect; subst. reflexivity. }
  unfold offset_strength_multi.
  destruct (Z.ltb_spec lag 1); [lia|]. change (1 <? 1) with false.
  change (negb (1 =? 1)) with false. cbv iota. cbn [andb].
  destruct (Z.eqb_spec (2 * hop_length) 0); [lia|].
  destruct (Z.ltb_spec (lag + n_fft / (2 * hop_length)) 0); [lia|].
  cbn [map]. rewrite Hcols, py_slice_prefix. reflexivity.
Qed.

(** X16: on a spectrogram of at least one bin and [m] frames, with
    [lag >= 1], [max_size = 1], no detrending, [center] on, [n_fft >= 0]
    and [hop_length > 0], [offset_strength_multi] returns one envelope of
    exactly [m] values; none is negative, and the first
    [lag + n_fft // (2 * hop_length)] of them are zero. *)
Theorem offset_strength_multi_envelope (S : list (list Q)) (lag n_fft hop_length : Z)
    (m : nat) :
  1 <= lag -> 0 <= n_fft -> 0 < hop_length ->
  S <> [] -> Forall (fun row => length row = m) S ->
  exists env,
    offset_strength_multi S lag 1 false true n_fft hop_length = Returns [env] /\
    length env = m /\
    Forall (fun v => (0 <= v)%Q) env /\
    forall j, (j < m)%nat -> Z.of_nat j < lag + n_fft / (2 * hop_length) ->
      env !! j = Some 0%Q.
Proof.
  intros Hlag Hfft Hhop Hne Hrect.
  destruct (mean_envelope S lag m Hlag Hne Hrect) as [Hlen Hpos].
  cbv zeta in Hlen, Hpos.
  assert (0 <= n_fft / (2 * hop_length)) as Hshift by (apply Z.div_pos; lia).
  eexists. split; [apply (offset_strength_multi_eq S lag n_fft hop_length m);
                   assumption|].
  set (pad := Z.to_nat (lag + n_fft / (2 * hop_length))).
  split; [|split].
  - rewrite length_take, length_app, repeat_length, Hlen. unfold pad. lia.
  - apply Forall_take, Forall_app. split; [|exact Hpos].
    apply Forall_lookup. intros j v Hv.
    pose proof (lookup_lt_Some _ _ _ Hv) as Hj. rewrite repeat_length in Hj.
    rewrite repeat_lookup in Hv by lia. inversion Hv. apply Qle_refl.
  - intros j Hj Hearly. rewrite lookup_take_lt by lia.
    rewrite lookup_app_l by (rewrite repeat_length; unfold pad; lia).
    apply repeat_lookup. unfold pad. lia.
Qed.

Lemma offset_strength_multi_envelope_witness :
  exists env,
    offset_strength_multi decaying_spectrogram 1 1 false true 2048 256
      = Returns [env] /\
    length env = 8%nat /\
    Forall (fun v => (0 <= v)%Q) env /\
    forall j, (j < 8)%nat -> Z.of_nat j < 1 + 2048 / (2 * 256) ->
      env !! j = Some 0%Q.
Proof.
  apply (offset_strength_multi_envelope decaying_spectrogram 1 2048 256 8).
  - lia.
  - lia.
  - lia.
  - discriminate.
  - repeat constructor.
Defined.

(** X17: when no bin of the spectrogram is lower [lag] frames later than
    it was, the offset strength is zero at every frame: only decreases
    count. *)
Theorem offset_strength_multi_no_decay (S : list (list Q)) (lag n_fft hop_length : Z)
    (m : nat) (env : list Q) :
  1 <= lag -> 0 <= n_fft -> 0 < hop_length ->
  S <> [] -> Forall (fun row => length row = m) S ->
  (forall row t a b, row ∈ S -> row !! t = Some a ->
     row !! (t + Z.to_nat lag)%nat = Some b -> (a <= b)%Q) ->
  offset_strength_multi S lag 1 false true n_fft hop_length = Returns [env] ->
  Forall (fun v => (v == 0)%Q) env.
Proof.
  intros Hlag Hfft Hhop Hne Hrect Hgrow Hret.
  rewrite (offset_strength_multi_eq S lag n_fft hop_length m) in Hret by assumption.
  inversion Hret; subst env. clear Hret.
  apply Forall_take, Forall_app. split.
  - apply Forall_lookup. intros j v Hv.
    pose proof (lookup_lt_Some _ _ _ Hv) as Hj. rewrite repeat_length in Hj.
    rewrite repeat_lookup in Hv by lia. inversion Hv. reflexivity.
  - unfold mean_over_rows. apply Forall_fmap.
    eapply Forall_impl.
    + apply (column_sums_closed (fun v => v = 0%Q)).
      * intros a b -> ->. reflexivity.
      * apply Forall_fmap, Forall_forall. intros row Hrow. simpl.
        apply Forall_fmap, Forall_lookup. intros t v Hv. simpl.
        destruct (lag_difference_lookup lag row t v Hlag Hv)
          as (a & b & Ha & Hb & ->).
        pose proof (Hgrow row t a b Hrow Ha Hb) as Hab.
        unfold discard_increase, StemAnal.np_maximum.
        destruct (Qltb 0 (-1 * (b - a))) eqn:Hneg; [|reflexivity].
        apply Qltb_lt in Hneg. lra.
    + intros total ->. simpl. unfold Qdiv. apply Qmult_0_l.
Qed.

Lemma offset_strength_multi_no_decay_witness :
  Forall (fun v => (v == 0)%Q) [0; 0; 0; 0]%Q.
Proof.
  apply (offset_strength_multi_no_decay [[1; 2; 2; 3]%Q] 1 2048 1024 4 [0; 0; 0; 0]%Q).
  - lia.
  - lia.
  - lia.
  - discriminate.
  - repeat constructor.
  - intros row t a b Hrow Ha Hb. apply list_elem_of_singleton in Hrow. subst row.
    destruct t as [|[|[|[|t]]]]; simpl in Ha, Hb; inversion Ha; inversion Hb;
      subst; discriminate.
  - vm_compute. reflexivity.
Defined.

End OffsetStrengthProperties.

(** ** Rounding to MIDI numbers *)

Section Rounding.
Import Midi.

Lemma py_round_cases (x : Q) :
  let f := Qfloor x in
  (py_round x = f /\ (x - inject_Z f <= 1 # 2)%Q) \/
  (py_round x = f + 1 /\ (1 # 2 <= x - inject_Z f)%Q).
Proof.
  intros f. unfold py_round. fold f.
  destruct (Qltb (x - inject_Z f) (1 # 2)) eqn:Hlow.
  - left. split; [reflexivity|]. apply Qlt_le_weak, Qltb_lt. exact Hlow.
  - apply Qltb_ge in Hlow.
    destruct (Qltb (1 # 2) (x - inject_Z f)) eqn:Hhigh.
    + right. split; [reflexivity|exact Hlow].
    + apply Qltb_ge in Hhigh. destruct (Z.even f).
      * left. split; [reflexivity|exact Hhigh].
      * right. split; [reflexivity|exact Hlow].
Qed.

(** The rounded value is at most one half away. *)
Lemma py_round_near (x : Q) :
  (- (1 # 2) <= x - inject_Z (py_round x) <= 1 # 2)%Q.
Proof.
  pose proof (Qfloor_le x) as Hlo. pose proof (Qlt_floor x) as Hhi.
  rewrite inject_Z_plus in Hhi. change (inject_Z 1) with 1%Q in Hhi.
  destruct (py_round_cases x) as [[-> Hf]|[-> Hf]].
  - split; lra.
  - rewrite inject_Z_plus. change (inject_Z 1) with 1%Q. split; lra.
Qed.

(** A value between two integers rounds between them. *)
Lemma py_round_between (a b : Z) (x : Q) :
  (inject_Z a <= x <= inject_Z b)%Q -> a <= py_round x <= b.
Proof.
  intros [Ha Hb].
  pose proof (Qfloor_le x) as Hlo.
  assert (a <= Qfloor x) as Haf.
  { rewrite <- (Qfloor_Z a). apply Qfloor_resp_le. exact Ha. }
  destruct (py_round_cases x) as [[-> Hf]|[-> Hf]].
  - split; [exact Haf|]. rewrite Zle_Qle. lra.
  - split; [lia|].
    assert (Qfloor x < b); [|lia]. rewrite Zlt_Qlt. lra.
Qed.

End Rounding.

(** ** [onset.py]: a rough MIDI transcription *)

Section RoughMidi.
Import Midi.
Context `{Collaborators} `{Transcriber}.

(** The loop appends one note per analyzer note, and stops with
    [IndexError] on the first note that has no frequency value. *)
Lemma append_notes_spec (output : list pyin_note) (acc : list note) :
  (exists made,
     append_notes output acc = Ok (acc ++ made) /\
     length made = length output /\
     forall i n, output !! i = Some n ->
       exists v, n_values n !! 0%nat = Some v /\ made !! i = Some (note_of n v)) \/
  (append_notes output acc = Raise IndexError /\
   exists n, n ∈ output /\ n_values n = []).
Proof.
  revert acc. induction output as [|n output IH]; intros acc.
  - left. exists []. simpl. rewrite app_nil_r. repeat split. intros i n Hn.
    discriminate.
  - cbn [append_notes]. destruct (n_values n) as [|v vs] eqn:Hvals.
    + right. split; [reflexivity|]. exists n. split; [left|exact Hvals].
    + simpl. destruct (IH (acc ++ [note_of n v])) as
        [(made & Hrun & Hlen & Hmade)|(Hrun & m & Hm & Hempty)].
      * left. exists (note_of n v :: made). split; [|split].
        -- unfold note_of in Hrun |- *. rewrite Hrun, <- app_assoc. reflexivity.
        -- simpl. rewrite Hlen. reflexivity.
        -- intros [|i] k Hk; simpl in Hk.
           ++ inversion Hk; subst k. exists v. rewrite Hvals. split; reflexivity.
           ++ apply Hmade. exact Hk.
      * right. split; [exact Hrun|]. exists m. split; [right; exact Hm|exact Hempty].
Qed.

(** X18: when [build_midi_from_output] returns, the result is the tempo
    template followed by one instrument of program 25, with one note per
    analyzer note, in order: velocity 100, start at the note's timestamp,
    end at timestamp plus duration, and a pitch that is at most half a
    semitone away from [hz_to_midi] of the note's first frequency value.
    No pitch bend is written. *)
Theorem build_midi_notes (output : list pyin_note) (midi : pretty_midi) :
  build_midi_from_output output = Ok midi ->
  exists ch_notes,
    midi = tempo_template ++ [mkInstrument 25 ch_notes []] /\
    length ch_notes = length output /\
    forall i n, output !! i = Some n ->
      exists v made,
        n_values n !! 0%nat = Some v /\ ch_notes !! i = Some made /\
        velocity made = 100 /\ start made = n_timestamp n /\
        end_time made = (n_timestamp n + n_duration n)%Q /\
        (- (1 # 2) <= hz_to_midi v - inject_Z (pitch made) <= 1 # 2)%Q.
Proof.
  unfold build_midi_from_output. intros Hbuild.
  destruct (append_notes_spec output []) as
    [(made & Hrun & Hlen & Hmade)|(Hrun & _)];
    rewrite Hrun in Hbuild; [|discriminate].
  cbn [rbind app] in Hbuild. inversion Hbuild; subst midi.
  exists made. split; [reflexivity|]. split; [exact Hlen|].
  intros i n Hn. destruct (Hmade i n Hn) as (v & Hv & Hi).
  exists v, (note_of n v). repeat split; try assumption; try reflexivity;
    apply py_round_near.
Qed.

(** X19: [build_midi_from_output] raises [IndexError] exactly when some
    analyzer note has no frequency value, and returns otherwise. *)
Theorem build_midi_index_error (output : list pyin_note) :
  (build_midi_from_output output = Raise IndexError <->
   exists n, n ∈ output /\ n_values n = []) /\
  ((forall n, n ∈ output -> n_values n <> []) <->
   exists midi, build_midi_from_output output = Ok midi).
Proof.
  unfold build_midi_from_output.
  destruct (append_notes_spec output []) as
    [(made & Hrun & Hlen & Hmade)|(Hrun & m & Hm & Hempty)]; rewrite Hrun;
    cbn [rbind].
  - assert (forall n, n ∈ output -> n_values n <> []) as Hall.
    { intros n Hn Hvals. apply list_elem_of_lookup in Hn as [i Hi].
      destruct (Hmade i n Hi) as (v & Hv & _). rewrite Hvals in Hv. discriminate. }
    split; split.
    + discriminate.
    + intros (n & Hn & Hvals). exfalso. exact (Hall n Hn Hvals).
    + eauto.
    + intros _. exact Hall.
  - split; split.
    + eauto.
    + reflexivity.
    + intros Hall. exfalso. exact (Hall m Hm Hempty).
    + intros [midi Hmidi]. discriminate.
Qed.

(** X20: [rough_midi] never changes or removes what a path already holds:
    it writes only to an output path that holds nothing yet. *)
Theorem rough_midi_keeps_files (inpath outpath q : string) (d : disk)
    (held : option pretty_midi) :
  paths d !! q = Some held ->
  paths (rough_midi inpath outpath d).2 !! q = Some held.
Proof.
  intros Hq. unfold rough_midi.
  destruct (decide (is_Some (paths d !! outpath))) as [Hexists|Hfree];
    [exact Hq|].
  destruct (load inpath) as [y fs].
  destruct (build_midi_from_output (notes_of y fs)); simpl; try exact Hq.
  rewrite lookup_insert_ne; [exact Hq|].
  intros ->. apply Hfree. rewrite Hq. eauto.
Qed.

(** X21: running [rough_midi] again after a run that returned 0 writes
    nothing: the second run finds the output path, prints
    ['file already exist'] and returns 0 with every path as the first run
    left it. *)
Theorem rough_midi_rerun (inpath outpath : string) (d : disk) :
  (rough_midi inpath outpath d).1 = Ok 0 ->
  rough_midi inpath outpath (rough_midi inpath outpath d).2 =
  (Ok 0, say "file already exist" (rough_midi inpath outpath d).2).
Proof.
  intros Hfirst.
  assert (is_Some (paths (rough_midi inpath outpath d).2 !! outpath)) as Hexists.
  { unfold rough_midi in Hfirst |- *.
    destruct (decide (is_Some (paths d !! outpath))) as [Hthere|Hfree];
      [exact Hthere|].
    destruct (load inpath) as [y fs].
    destruct (build_midi_from_output (notes_of y fs)); simpl in Hfirst |- *;
      try discriminate.
    rewrite lookup_insert_eq. eauto. }
  unfold rough_midi at 1.
  destruct (decide (is_Some (paths (rough_midi inpath outpath d).2 !! outpath)));
    [reflexivity|contradiction].
Qed.

End RoughMidi.

Lemma build_midi_notes_witness :
  exists ch_notes,
    [Midi.mkInstrument 25
       [Midi.mkNote 100 69 0.5 (0.5 + 0.25); Midi.mkNote 100 57 1 (1 + 0.5)] []]
      = @Midi.tempo_template two_notes ++ [Midi.mkInstrument 25 ch_notes []] /\
    length ch_notes = length (@Midi.notes_of two_notes [] 44100) /\
    forall i n, @Midi.notes_of two_notes [] 44100 !! i = Some n ->
      exists v made,
        Midi.n_values n !! 0%nat = Some v /\ ch_notes !! i = Some made /\
        Midi.velocity made = 100 /\ Midi.start made = Midi.n_timestamp n /\
        Midi.end_time made = (Midi.n_timestamp n + Midi.n_duration n)%Q /\
        (- (1 # 2) <= @Midi.hz_to_midi two_notes v - inject_Z (Midi.pitch made)
         <= 1 # 2)%Q.
Proof.
  apply (@build_midi_notes two_notes (@Midi.notes_of two_notes [] 44100)).
  reflexivity.
Defined.

Lemma rough_midi_keeps_files_witness :
  Midi.paths (@Midi.rough_midi (replay silence) two_notes "a.wav" "a.mid"
                (Midi.mkDisk (<["b.mid" := None]> ∅) [])).2 !! "b.mid" = Some None.
Proof.
  apply (@rough_midi_keeps_files (replay silence) two_notes "a.wav" "a.mid" "b.mid"
           (Midi.mkDisk (<["b.mid" := None]> ∅) []) None).
  reflexivity.
Defined.

Lemma rough_midi_rerun_witness :
  @Midi.rough_midi (replay silence) two_notes "a.wav" "a.mid"
    (@Midi.rough_midi (replay silence) two_notes "a.wav" "a.mid"
       (Midi.mkDisk ∅ [])).2 =
  (Ok 0, Midi.say "file already exist"
           (@Midi.rough_midi (replay silence) two_notes "a.wav" "a.mid"
              (Midi.mkDisk ∅ [])).2).
Proof.
  apply (@rough_midi_rerun (replay silence) two_notes "a.wav" "a.mid"
           (Midi.mkDisk ∅ [])).
  reflexivity.
Defined.

(** ** [jams_to_midi] *)

Section JamsToMidi.
Import Midi.

Lemma bend_amount_bounds (value : Q) :
  -2048 <= py_round ((value - inject_Z (py_round value)) * 4096)%Q <= 2048.
Proof.
  apply py_round_between. pose proof (py_round_near value) as [Hlo Hhi].
  change (inject_Z (-2048)) with (-2048)%Q. change (inject_Z 2048) with 2048%Q.
  split; lra.
Qed.

Lemma fill_channel_spec (q : Z) (choice : nat -> Z) (anno : list observation) :
  forall (k : nat) (midi_ch : instrument),
    let filled := (fill_channel q choice k anno midi_ch).1 in
    (fill_channel q choice k anno midi_ch).2 = (k + length anno)%nat /\
    program filled = program midi_ch /\
    length (notes filled) = (length (notes midi_ch) + length anno)%nat /\
    length (pitch_bends filled) = (length (pitch_bends midi_ch) + length anno)%nat /\
    (Forall (fun pb => exists b, bend pb = b * q /\ -2048 <= b <= 2048)
            (pitch_bends midi_ch) ->
     Forall (fun pb => exists b, bend pb = b * q /\ -2048 <= b <= 2048)
            (pitch_bends filled)) /\
    forall lo hi, (forall j, lo <= choice j <= hi) ->
      Forall (fun n => 100 + lo <= velocity n <= 100 + hi) (notes midi_ch) ->
      Forall (fun n => 100 + lo <= velocity n <= 100 + hi) (notes filled).
Proof.
  induction anno as [|o anno IH]; intros k midi_ch.
  - simpl. repeat split; try lia; auto.
  - cbn [fill_channel].
    match goal with
    | |- context [fill_channel q choice (S k) anno ?ch] =>
        destruct (IH (S k) ch) as (Hk & Hprog & Hnotes & Hbends & Hbound & Hvel)
    end.
    cbv zeta in *. cbn [program notes pitch_bends] in *.
    rewrite length_app in Hnotes, Hbends. cbn [length] in *.
    repeat split; try lia; try assumption.
    + intros Hbefore. apply Hbound. apply Forall_app. split; [exact Hbefore|].
      repeat constructor. eexists. split; [reflexivity|]. apply bend_amount_bounds.
    + intros lo hi Hchoice Hbefore. apply (Hvel lo hi Hchoice).
      apply Forall_app. split; [exact Hbefore|].
      repeat constructor; simpl; specialize (Hchoice k); lia.
Qed.

Lemma add_channels_spec (q : Z) (choice : nat -> Z) (annos : list (list observation)) :
  forall (k : nat) (midi : pretty_midi),
    exists added,
      add_channels q choice k annos midi = midi ++ added /\
      (length added <= length annos)%nat /\
      Forall (well_formed_channel q) added /\
      forall lo hi, (forall j, lo <= choice j <= hi) ->
        Forall (fun ch => Forall (fun n => 100 + lo <= velocity n <= 100 + hi)
                                 (notes ch)) added.
Proof.
  induction annos as [|anno annos IH]; intros k midi.
  - exists []. simpl. rewrite app_nil_r. repeat split; auto.
  - cbn [add_channels].
    pose proof (fill_channel_spec q choice anno k (mkInstrument 25 [] []))
      as (Hk & Hprog & Hnotes & Hbends & Hbound & Hvel).
    cbv zeta in *.
    destruct (fill_channel q choice k anno (mkInstrument 25 [] [])) as [midi_ch k'].
    cbn [fst snd program notes pitch_bends length] in *.
    unfold len. destruct (Z.eqb_spec (Z.of_nat (length (notes midi_ch))) 0) as [He|Hne].
    + destruct (IH k' midi) as (added & Hrun & Hlen & Hgood & Hvels).
      exists added. repeat split; try assumption. simpl. lia.
    + destruct (IH k' (midi ++ [midi_ch])) as (added & Hrun & Hlen & Hgood & Hvels).
      exists (midi_ch :: added). split; [|split; [|split]].
      * rewrite Hrun, <- app_assoc. reflexivity.
      * simpl. lia.
      * constructor; [|exact Hgood]. unfold well_formed_channel.
        split; [exact Hprog|]. split; [|split].
        -- intros Hnil. rewrite Hnil in Hne. simpl in Hne. lia.
        -- lia.
        -- apply Hbound. constructor.
      * intros lo hi Hchoice. constructor; [|apply (Hvels lo hi Hchoice)].
        apply (Hvel lo hi Hchoice). constructor.
Qed.

(** X22: every instrument [jams_to_midi] returns has program 25, at least
    one note, and exactly one pitch bend per note; the pitch of every bend
    is [q] times an amount between -2048 and 2048, so it is 0 when
    [q = 0].  There are no more instruments than annotations: annotations
    without notes give none. *)
Theorem jams_to_midi_channels (search : string -> list (list observation)) (q : Z)
    (choice : nat -> Z) :
  let annos := if len (search "note_midi") =? 0 then search "pitch_midi"
               else search "note_midi" in
  Forall (well_formed_channel q) (jams_to_midi search q choice) /\
  (length (jams_to_midi search q choice) <= length annos)%nat.
Proof.
  intros annos. unfold jams_to_midi. fold annos.
  destruct (add_channels_spec q choice annos 0 []) as (added & Hrun & Hlen & Hgood & _).
  rewrite Hrun. simpl. split; assumption.
Qed.

(** X23: when every draw of [np.random.choice(range(-5, 5))] lies between
    -5 and 4, every note [jams_to_midi] returns has a velocity between 95
    and 104. *)
Theorem jams_to_midi_velocities (search : string -> list (list observation)) (q : Z)
    (choice : nat -> Z) :
  (forall k, -5 <= choice k <= 4) ->
  Forall (fun ch => Forall (fun n => 95 <= velocity n <= 104) (notes ch))
         (jams_to_midi search q choice).
Proof.
  intros Hchoice. unfold jams_to_midi.
  match goal with
  | |- context [add_channels q choice 0 ?annos []] =>
      destruct (add_channels_spec q choice annos 0 []) as (added & Hrun & _ & _ & Hvel)
  end.
  rewrite Hrun. simpl. apply (Hvel (-5) 4 Hchoice).
Qed.

End JamsToMidi.

Lemma jams_to_midi_velocities_witness :
  Forall (fun ch => Forall (fun n => 95 <= Midi.velocity n <= 104) (Midi.notes ch))
         (Midi.jams_to_midi two_strings 1 (fun k => Z.of_nat (k mod 10) - 5)).
Proof.
  apply (jams_to_midi_velocities two_strings 1 (fun k => Z.of_nat (k mod 10) - 5)).
  intros k. pose proof (Nat.mod_upper_bound k 10). lia.
Defined.
